(** * The HTTP server extension of the Skybrush server

    A shallow embedding of [flockwave/server/ext/http_server/extension.py]:
    the heap of proposed index pages, the default index route, the scoped
    mount and proposal helpers, the loader and the resilient serve loop.

    Python values are modelled as follows: [int] as [Z], [str] as [string]
    (the UTF-8 encoding of the text, whose byte order is the order of the
    code points), [bytes] as [list Byte.byte], a [list] used as an array as
    a Rocq list read and written through stdpp's lookup and insert, a
    [dict] with string keys as a [gmap string _], a [float], such as a
    reading of the clock of [trio], as a binary64 float of the kernel with
    its rounded arithmetic.  A Python call either returns a value or
    raises; this is the [result] type below. *)

From Stdlib Require Import ZArith QArith Lqa String OrderedTypeEx.
From Stdlib Require Import PrimFloat FloatOps SpecFloat.
From stdpp Require Import base decidable option list gmap strings pretty sorting.

Open Scope Z_scope.
Open Scope nat_scope.

(** ** Exceptions and results *)

Inductive exn :=
  | IndexError
  | ValueError
  | AttributeError
  | UnicodeDecodeError
  | BuildError
  | RuntimeError (msg : string)
  | OSError (msg : string)
  | HTTPException (code : Z)
  | DuplicateMountError
  | Cancelled
  | KeyboardInterrupt.

(** [Cancelled] and [KeyboardInterrupt] derive from [BaseException] only, so
    an [except Exception] clause does not catch them. *)
Definition is_Exception (e : exn) : bool :=
  match e with
  | Cancelled | KeyboardInterrupt => false
  | _ => true
  end.

(** The outcome of running a piece of Python code.  [NoResult] stands for a
    computation that has not produced an outcome within the model: a loop
    whose iteration budget is exhausted, or a service that is still
    running when the observed environment ends. *)
Inductive result (A : Type) :=
  | Ok (a : A)
  | Raise (e : exn)
  | NoResult.
Arguments Ok {A} a.
Arguments Raise {A} e.
Arguments NoResult {A}.

#[global] Instance result_ret : MRet result := λ A a, Ok a.
#[global] Instance result_bind : MBind result := λ A B f m,
  match m with
  | Ok a => f a
  | Raise e => Raise e
  | NoResult => NoResult
  end.
#[global] Instance result_fmap : FMap result := λ A B f m,
  match m with
  | Ok a => Ok (f a)
  | Raise e => Raise e
  | NoResult => NoResult
  end.

Ltac rsimpl :=
  cbn [mbind mret fmap result_bind result_ret result_fmap].

(** ** Python list primitives *)

Section pylist.
Context {A : Type}.

(** [l[i]] for a non-negative index. *)
Definition getitem (l : list A) (i : nat) : result A :=
  match l !! i with
  | Some x => Ok x
  | None => Raise IndexError
  end.

(** [l[i] = x] for a non-negative index. *)
Definition setitem (l : list A) (i : nat) (x : A) : result (list A) :=
  if decide (i < length l) then Ok (<[i := x]> l) else Raise IndexError.

(** [l[-1]]. *)
Definition getlast (l : list A) : result A :=
  match last l with
  | Some x => Ok x
  | None => Raise IndexError
  end.

(** [l.pop()], keeping only the list that remains. *)
Definition pop (l : list A) : result (list A) :=
  match l with
  | [] => Raise IndexError
  | _ => Ok (take (length l - 1) l)
  end.

(** [l.index(x)]: the position of the first element equal to [x]. *)
Fixpoint list_index `{EqDecision A} (l : list A) (x : A) : result nat :=
  match l with
  | [] => Raise ValueError
  | y :: l' => if decide (y = x) then Ok 0 else S <$> list_index l' x
  end.
End pylist.

(** ** The [heapq] module

    [heappush], [heapify] and the two sifting loops, as in the standard
    library's [heapq.py].  The element type only needs [<]. *)

Definition parent (pos : nat) : nat := (pos - 1) / 2.

Section heapq.
Context {A : Type} (lt : A → A → bool).

(** The [while pos > startpos] loop of [_siftdown]. *)
Fixpoint siftdown_loop (fuel : nat) (heap : list A) (startpos pos : nat)
    (newitem : A) : result (list A) :=
  if decide (startpos < pos) then
    match fuel with
    | 0 => NoResult
    | S fuel =>
        let parentpos := parent pos in
        par ← getitem heap parentpos;
        if lt newitem par then
          heap ← setitem heap pos par;
          siftdown_loop fuel heap startpos parentpos newitem
        else setitem heap pos newitem
    end
  else setitem heap pos newitem.

Definition _siftdown (heap : list A) (startpos pos : nat) : result (list A) :=
  newitem ← getitem heap pos;
  siftdown_loop pos heap startpos pos newitem.

(** The index of the smaller child, as chosen inside [_siftup]. *)
Definition smaller_child (heap : list A) (endpos childpos : nat) : result nat :=
  let rightpos := childpos + 1 in
  if decide (rightpos < endpos) then
    l ← getitem heap childpos;
    r ← getitem heap rightpos;
    mret (if negb (lt l r) then rightpos else childpos)
  else mret childpos.

(** The [while childpos < endpos] loop of [_siftup]; it returns the heap
    and the final value of [pos]. *)
Fixpoint siftup_loop (fuel : nat) (heap : list A) (endpos pos childpos : nat)
    : result (list A * nat) :=
  if decide (childpos < endpos) then
    match fuel with
    | 0 => NoResult
    | S fuel =>
        childpos ← smaller_child heap endpos childpos;
        x ← getitem heap childpos;
        heap ← setitem heap pos x;
        siftup_loop fuel heap endpos childpos (2 * childpos + 1)
    end
  else mret (heap, pos).

Definition _siftup (heap : list A) (pos : nat) : result (list A) :=
  let endpos := length heap in
  let startpos := pos in
  newitem ← getitem heap pos;
  '(heap, pos) ← siftup_loop endpos heap endpos pos (2 * pos + 1);
  heap ← setitem heap pos newitem;
  _siftdown heap startpos pos.

(** [for i in reversed(range(k)): _siftup(x, i)]. *)
Fixpoint heapify_loop (k : nat) (x : list A) : result (list A) :=
  match k with
  | 0 => mret x
  | S i => x ← _siftup x i; heapify_loop i x
  end.

Definition heapify (x : list A) : result (list A) :=
  let n := length x in
  heapify_loop (n / 2) x.

Definition heappush (heap : list A) (item : A) : result (list A) :=
  let heap := heap ++ [item] in
  _siftdown heap 0 (length heap - 1).

(** [a <= b], that is [not b < a]. *)
Definition le (a b : A) : Prop := lt b a = false.

(** Every edge of the implicit tree whose parent is at position [s] or
    later respects the order. *)
Definition heap_above (s : nat) (l : list A) : Prop :=
  ∀ j x y, 0 < j → s ≤ parent j →
    l !! parent j = Some x → l !! j = Some y → le x y.

(** The heap invariant of [heapq]: [heap[k] <= heap[2*k+1]] and
    [heap[k] <= heap[2*k+2]] for all [k]. *)
Definition is_heap (l : list A) : Prop := heap_above 0 l.

(** The invariant of the two sifting loops: [q] is the position being
    filled.  Edges that do not touch [q] are in order, and the parent of
    [q] is below the children of [q]. *)
Definition hole_inv (s q : nat) (l : list A) : Prop :=
  (∀ j x y, 0 < j → s ≤ parent j → j ≠ q → parent j ≠ q →
     l !! parent j = Some x → l !! j = Some y → le x y) ∧
  (s < q → ∀ c x y, 0 < c → parent c = q →
     l !! parent q = Some x → l !! c = Some y → le x y).

Definition above_hole (q : nat) (v : A) (l : list A) : Prop :=
  ∀ c y, 0 < c → parent c = q → l !! c = Some y → le v y.
End heapq.

(** [desc s q]: position [q] lies in the subtree rooted at position [s]. *)
Inductive desc (s : nat) : nat → Prop :=
  | desc_refl : desc s s
  | desc_step c : 0 < c → desc s (parent c) → desc s c.

(** ** Proposed index pages

    [@dataclass(order=True) class ProposedIndexPage] with the fields
    [priority] and [route], in this order.  The generated [__eq__] and
    [__lt__] compare the tuples [(priority, route)]. *)

Record ProposedIndexPage := { priority : Z; route : string }.

#[global] Instance ProposedIndexPage_eq_dec : EqDecision ProposedIndexPage.
Proof. solve_decision. Defined.

(** [<] on [str]: lexicographic on the code points. *)
Definition str_lt (a b : string) : bool := String.ltb a b.

(** [<] on the tuples [(priority, route)]: the first differing component
    decides. *)
Definition page_lt (a b : ProposedIndexPage) : bool :=
  if decide (priority a = priority b) then
    if decide (route a = route b) then false else str_lt (route a) (route b)
  else (priority a <? priority b)%Z.

(** ** The extension module

    The module-level state, and the functions of [extension.py] as state
    transformers over it. *)

(** A value of the configuration dictionary. *)
Inductive value :=
  | VNone
  | VBool (b : bool)
  | VInt (n : Z)
  | VStr (s : string).

(** Python truthiness, as used by [or]. *)
Definition truthy (v : value) : bool :=
  match v with
  | VNone => false
  | VBool b => b
  | VInt n => negb (n =? 0)%Z
  | VStr s => negb (String.eqb s "")
  end.

(** [str(v)], as used by an f-string. *)
Definition str_of_value (v : value) : string :=
  match v with
  | VNone => "None"
  | VBool true => "True"
  | VBool false => "False"
  | VInt n => pretty n
  | VStr s => s
  end.

(** What can be mounted: a Quart blueprint or any other ASGI application. *)
Inductive webapp :=
  | Blueprint (name : string)
  | AsgiApp (name : string).

#[global] Instance webapp_eq_dec : EqDecision webapp.
Proof. solve_decision. Defined.

(** The part of a [QuartTrio] application that the extension touches: the
    blueprints registered on it, each with its URL prefix. *)
Record QuartTrio := {
  import_name : string;
  blueprints : list (string * string)
}.

Definition register_blueprint (q : QuartTrio) (name url_prefix : string) : QuartTrio :=
  {| import_name := import_name q;
     blueprints := blueprints q ++ [(name, url_prefix)] |}.

(** What the default index route answers with. *)
Inductive response :=
  | Redirect (code : Z) (location : string).

(** The request, as far as [index] reads it. *)
Record request_t := { query_string : list Byte.byte }.

Definition PACKAGE_NAME : string := "flockwave.server.ext.http_server".

(** The keys of [exports] that change at run time. *)
Record exports_t := {
  address : option (value * value);
  asgi_app : option nat
}.

(** The [default] entry of the [host] property in [schema]. *)
Definition schema_host_default : string := "127.0.0.1".

(** The Hypercorn configuration built by [run]. *)
Record HyperConfig := {
  bind : list string;
  certfile : option value;
  keyfile : option value;
  use_reloader : bool
}.

(** [Config.ssl_enabled] of Hypercorn. *)
Definition ssl_enabled (c : HyperConfig) : bool :=
  bool_decide (certfile c ≠ None) && bool_decide (keyfile c ≠ None).

(** One call of [serve], as the environment decides it: whether the call
    returned ([None]) or raised, what [trio.current_time()] gives when the
    call is over, and what it gives when the back-off sleep that follows a
    failure is over.  The readings of the clock are floats. *)
Record serve_outcome := {
  stopped_at : float;
  raised : option exn;
  resumed_at : float
}.

(** What [run] does to the outside world. *)
Inductive event :=
  | Warn (msg : string)
  | Info (msg : string)
  | Error (msg : string)
  | SetLevel (level : string)
  | Serve (app : option nat) (config : HyperConfig)
  | ServeExit (e : option exn)
  | Sleep (seconds : Q).

(** Events, each with the value of [trio.current_time()] when it happens. *)
Definition trace := list (float * event).

Section extension.
(** The routing middleware of [.routing] and the library functions the
    module calls are parameters:
    - [router_new] is [RoutingMiddleware()];
    - [router_add r app scopes path priority] is [r.add(...)]; it gives
      the router afterwards and the disposer that [add] returned, if any;
    - [url_for] is Quart's, [decode_utf8] is [bytes.decode("utf-8")]. *)
Context {Router : Type}.
Variable router_new : Router.
Variable router_add :
  Router → webapp → option (list string) → option string → Z →
  result (Router * option (Router → result Router)).
Variable url_for : string → result string.
Variable decode_utf8 : list Byte.byte → result string.
Variable get_port_number_for_service : string → Z.
Variable format_socket_address : value * value → string.

(** The globals of the module.  Routers are objects: [routers] is the
    store they live in, and [exports["asgi_app"]] refers into it. *)
Record globals := {
  proposed_index_pages : list ProposedIndexPage;
  quart_app : option QuartTrio;
  exports : exports_t;
  routers : list Router
}.

Definition initial : globals :=
  {| proposed_index_pages := [];
     quart_app := None;
     exports := {| address := None; asgi_app := None |};
     routers := [] |}.

Definition set_pages (g : globals) (pages : list ProposedIndexPage) : globals :=
  {| proposed_index_pages := pages; quart_app := quart_app g;
     exports := exports g; routers := routers g |}.

Definition set_quart_app (g : globals) (q : option QuartTrio) : globals :=
  {| proposed_index_pages := proposed_index_pages g; quart_app := q;
     exports := exports g; routers := routers g |}.

Definition set_exports (g : globals) (e : exports_t) : globals :=
  {| proposed_index_pages := proposed_index_pages g; quart_app := quart_app g;
     exports := e; routers := routers g |}.

Definition set_routers (g : globals) (rs : list Router) : globals :=
  {| proposed_index_pages := proposed_index_pages g; quart_app := quart_app g;
     exports := exports g; routers := rs |}.

(** A call: it gives an outcome and the globals afterwards. *)
Definition M (A : Type) : Type := globals → result A * globals.

#[local] Instance M_ret : MRet M := λ A a g, (Ok a, g).
#[local] Instance M_bind : MBind M := λ A B f m g,
  match m g with
  | (Ok a, g') => f a g'
  | (Raise e, g') => (Raise e, g')
  | (NoResult, g') => (NoResult, g')
  end.

Definition raise {A} (e : exn) : M A := λ g, (Raise e, g).

(** [try: body finally: fin]. *)
Definition try_finally {A} (body : M A) (fin : M unit) : M A := λ g,
  match body g with
  | (NoResult, g') => (NoResult, g')
  | (r, g') =>
      match fin g' with
      | (Ok _, g'') => (r, g'')
      | (Raise e, g'') => (Raise e, g'')
      | (NoResult, g'') => (NoResult, g'')
      end
  end.

Definition get_index_url : M (option string) := λ g,
  match proposed_index_pages g with
  | page :: _ => (Some <$> url_for (route page), g)
  | [] => (Ok None, g)
  end.

Definition abort {A} (code : Z) : M A := raise (HTTPException code).

Definition redirect (location : string) : M response :=
  mret (Redirect 302 location).

(** The handler of the route ["/"] that [create_app] registers. *)
Definition index (request : request_t) : M response :=
  index_url ← get_index_url;
  match index_url with
  | Some index_url =>
      if negb (String.eqb index_url "") then
        match query_string request with
        | _ :: _ =>
            λ g, match decode_utf8 (query_string request) with
                 | Ok q => redirect (index_url +:+ "?" +:+ q) g
                 | Raise e => (Raise e, g)
                 | NoResult => (NoResult, g)
                 end
        | [] => redirect index_url
        end
      else abort 404
  | None => abort 404
  end.

(** [create_app]; the result refers to the new router. *)
Definition create_app : M nat := λ g,
  match quart_app g with
  | Some _ => (Raise (RuntimeError "App is already created"), g)
  | None =>
      let g := set_quart_app g
                 (Some {| import_name := PACKAGE_NAME; blueprints := [] |}) in
      match router_add router_new (AsgiApp PACKAGE_NAME)
              (Some ["http"; "websocket"]) None 0 with
      | Ok (router, _) =>
          (Ok (length (routers g)), set_routers g (routers g ++ [router]))
      | Raise e => (Raise e, g)
      | NoResult => (NoResult, g)
      end
  end.

(** The disposer that [add] returned, acting on the router it was
    returned by. *)
Definition router_disposer (ref : nat) (remover : Router → result Router) : M unit := λ g,
  match routers g !! ref with
  | Some router =>
      match remover router with
      | Ok router => (Ok (), set_routers g (<[ref := router]> (routers g)))
      | Raise e => (Raise e, g)
      | NoResult => (NoResult, g)
      end
  | None => (Raise IndexError, g)
  end.

Definition mount (app : webapp) (path : string)
    (scopes : option (list string)) (priority : Z) : M (option (M unit)) := λ g,
  match app with
  | Blueprint name =>
      match quart_app g with
      | Some q =>
          (Ok None, set_quart_app g (Some (register_blueprint q name path)))
      | None => (Raise AttributeError, g)
      end
  | _ =>
      match asgi_app (exports g) with
      | Some ref =>
          match routers g !! ref with
          | Some router =>
              match router_add router app scopes (Some path) priority with
              | Ok (router, remover) =>
                  (Ok (router_disposer ref <$> remover),
                   set_routers g (<[ref := router]> (routers g)))
              | Raise e => (Raise e, g)
              | NoResult => (NoResult, g)
              end
          | None => (Raise IndexError, g)
          end
      | None => (Raise AttributeError, g)
      end
  end.

(** [with mounted(app, path=..., scopes=..., priority=...): body]. *)
Definition mounted {A} (app : webapp) (path : string)
    (scopes : option (list string)) (priority : Z) (body : M A) : M A :=
  remover ← mount app path scopes priority;
  try_finally body
    (match remover with
     | Some remover => remover
     | None => mret ()
     end).

(** The body of the closure [disposer] of [propose_index_page], as a
    function of the list it rewrites. *)
Definition disposer_body (page : ProposedIndexPage)
    (pages : list ProposedIndexPage) : result (list ProposedIndexPage) :=
  index ← list_index pages page;
  if bool_decide (0 ≤ Z.of_nat index)%Z then
    last ← getlast pages;
    pages ← setitem pages index last;
    pages ← pop pages;
    heapify page_lt pages
  else mret pages.

(** The closure [disposer] for its [page]. *)
Definition disposer (page : ProposedIndexPage) : M unit := λ g,
  match disposer_body page (proposed_index_pages g) with
  | Ok pages => (Ok (), set_pages g pages)
  | Raise e => (Raise e, g)
  | NoResult => (NoResult, g)
  end.

Definition propose_index_page (route : string) (priority : Z) : M (M unit) := λ g,
  let page := {| priority := - priority; route := route |} in
  match heappush page_lt (proposed_index_pages g) page with
  | Ok pages => (Ok (disposer page), set_pages g pages)
  | Raise e => (Raise e, g)
  | NoResult => (NoResult, g)
  end.

(** [with proposed_index_page(route, priority): body]. *)
Definition proposed_index_page {A} (route : string) (priority : Z)
    (body : M A) : M A :=
  disposer ← propose_index_page route priority;
  try_finally body disposer.

Definition load (configuration : gmap string value) : M unit := λ g,
  let address :=
    (default (VStr "localhost") (configuration !! "host"),
     default (VInt (get_port_number_for_service "http"))
       (configuration !! "port")) in
  match create_app g with
  | (Ok router, g) =>
      (Ok (), set_exports g {| address := Some address; asgi_app := Some router |})
  | (Raise e, g) => (Raise e, g)
  | (NoResult, g) => (NoResult, g)
  end.

Definition unload : M unit := λ g,
  let g := set_quart_app g None in
  (Ok (), set_exports g {| address := None; asgi_app := None |}).

Definition max_retries : nat := 3.

(** [configuration.get(key) or None]. *)
Definition get_or_None (configuration : gmap string value) (key : string)
    : option value :=
  match configuration !! key with
  | Some v => if truthy v then Some v else None
  | None => None
  end.

(** The [while True] loop of [run].  [now] is what [current_time()] gives
    at the head of the loop, and [env] lists what the successive calls of
    [serve] do and what the clock reads after them.  The time the server
    ran is computed as Python does: the difference of the two readings,
    rounded to a float, and compared with 5.  When [env] ends the last
    call of [serve] is still running. *)
Fixpoint serve_loop (g : globals) (config : HyperConfig) (starting : string)
    (env : list serve_outcome) (now : float) (retries : nat) : result () * trace :=
  let started_at := now in
  let starts := [(now, Info starting); (now, Serve (asgi_app (exports g)) config)] in
  match env with
  | [] => (NoResult, starts)
  | o :: env =>
      let now := stopped_at o in
      let served := starts ++ [(now, ServeExit (raised o))] in
      match raised o with
      | None => (Ok (), served)
      | Some e =>
          if is_Exception e then
            let retries :=
              if (5 <=? now - started_at)%float then 0 else retries in
            if decide (retries < max_retries) then
              let '(r, tr) :=
                serve_loop g config starting env (resumed_at o) (retries + 1) in
              (r, served ++
                  [(now, Error "Server stopped unexpectedly, retrying...");
                   (now, Sleep 1)] ++ tr)
            else (Raise e, served)
          else (Raise e, served)
      end
  end.

Definition run (debug : bool) (configuration : gmap string value)
    (env : list serve_outcome) (now : float) (g : globals) : result () * trace :=
  match address (exports g) with
  | None =>
      (Ok (), [(now, Warn "HTTP server address is not specified in configuration")])
  | Some (host, port) =>
      let level := if negb debug then [(now, SetLevel "WARNING")] else [] in
      let config :=
        {| bind := [str_of_value host +:+ ":" +:+ str_of_value port];
           certfile := get_or_None configuration "certfile";
           keyfile := get_or_None configuration "keyfile";
           use_reloader := false |} in
      let secure := ssl_enabled config in
      let starting :=
        "Starting " +:+ (if secure then "HTTPS" else "HTTP") +:+
        " server on " +:+ format_socket_address (host, port) in
      let '(r, tr) := serve_loop g config starting env now 0 in
      (r, level ++ tr)
  end.

(** A client of the extension: a sequence of calls of
    [propose_index_page] and of the disposers these calls returned,
    [Dispose k] calling the disposer of the [k]-th proposal. *)
Inductive call :=
  | Propose (route : string) (priority : Z)
  | Dispose (k : nat).

(** [try: m() except Exception: pass]: a client that goes on after a call
    that raised. *)
Definition attempt (m : M unit) : M unit := λ g,
  match m g with
  | (Raise e, g') => if is_Exception e then (Ok (), g') else (Raise e, g')
  | r => r
  end.

Fixpoint run_calls (calls : list call) (disposers : list (M unit))
    : M (list (M unit)) :=
  match calls with
  | [] => mret disposers
  | Propose route priority :: calls =>
      d ← propose_index_page route priority;
      run_calls calls (disposers ++ [d])
  | Dispose k :: calls =>
      match disposers !! k with
      | Some d => _ ← attempt d; run_calls calls disposers
      | None => run_calls calls disposers
      end
  end.
End extension.

(** ** The mount table and the request router

    The module [.routing] with the class [RoutingMiddleware] is not part of
    the sources at hand.  [Routing] models it from the specification. *)

Module Routing.

(** Modelled from the spec: the entries of the mount table
    ([RoutingMiddleware] keeps them; [.routing] is missing).  An empty
    [acceptedScopes] accepts every scope kind. *)
Record MountEntry := {
  entry_id : nat;
  application : webapp;
  pathPrefix : string;
  acceptedScopes : list string;
  priority : Z
}.

(** Modelled from the spec: the mount table, entries in the order of
    registration ([.routing] is missing). *)
Record MountTable := {
  entries : list MountEntry;
  next_id : nat
}.

(** Modelled from the spec: the mount table of a new [RoutingMiddleware]
    ([.routing] is missing). *)
Definition empty : MountTable := {| entries := []; next_id := 0 |}.

(** Modelled from the spec: [mount] of the missing [.routing].  It fails
    with [DuplicateMountError] when the pair of path and scopes is owned by
    a different application, changes nothing when the same application
    owns it already, and registers a new entry otherwise.  It returns the
    table and the identifier that the revocation handle removes. *)
Definition mount (t : MountTable) (app : webapp) (path : string)
    (scopes : list string) (prio : Z) : result (MountTable * nat) :=
  match
    list_find (λ e, pathPrefix e = path ∧ acceptedScopes e = scopes) (entries t)
  with
  | Some (_, e) =>
      if decide (application e = app) then Ok (t, entry_id e)
      else Raise DuplicateMountError
  | None =>
      Ok ({| entries := entries t ++
               [{| entry_id := next_id t; application := app;
                   pathPrefix := path; acceptedScopes := scopes;
                   priority := prio |}];
             next_id := S (next_id t) |},
          next_id t)
  end.

(** Modelled from the spec: the revocation handle of the missing
    [.routing]; it removes exactly its entry, and nothing when the entry is
    gone. *)
Definition revoke (id : nat) (t : MountTable) : MountTable :=
  {| entries := filter (λ e, entry_id e ≠ id) (entries t);
     next_id := next_id t |}.

(** Modelled from the spec: an entry is eligible for a connection when its
    accepted scopes contain the scope kind, or are unrestricted, and its
    path prefix is a prefix of the path ([.routing] is missing). *)
Definition eligible (scopeKind path : string) (e : MountEntry) : bool :=
  (bool_decide (acceptedScopes e = []) ||
   bool_decide (scopeKind ∈ acceptedScopes e)) &&
  String.prefix (pathPrefix e) path.

(** Modelled from the spec: [a] is preferred to [b] when its prefix is
    longer, or as long and its priority higher ([.routing] is missing). *)
Definition preferred (a b : MountEntry) : bool :=
  bool_decide (String.length (pathPrefix b) < String.length (pathPrefix a)) ||
  (bool_decide (String.length (pathPrefix a) = String.length (pathPrefix b)) &&
   bool_decide (priority b < priority a)%Z).

(** Modelled from the spec: the best entry of a list given in the order of
    registration; a later entry replaces the best so far only when it is
    preferred to it, so that the earliest registration wins a tie
    ([.routing] is missing). *)
Fixpoint select (best : MountEntry) (candidates : list MountEntry) : MountEntry :=
  match candidates with
  | [] => best
  | e :: candidates => select (if preferred e best then e else best) candidates
  end.

(** Modelled from the spec: [route] of the missing [.routing]; [None] is
    the answer when no entry matches. *)
Definition route (t : MountTable) (scopeKind path : string) : option MountEntry :=
  match filter (λ e, eligible scopeKind path e = true) (entries t) with
  | [] => None
  | e :: candidates => Some (select e candidates)
  end.

(** Modelled from the spec: [add] of the missing [RoutingMiddleware], as
    [extension.py] calls it, on top of [mount]: no scopes means all, no
    path means every path, and the disposer revokes the entry. *)
Definition add (t : MountTable) (app : webapp)
    (scopes : option (list string)) (path : option string) (prio : Z)
    : result (MountTable * option (MountTable → result MountTable)) :=
  '(t, id) ← mount t app (default "" path) (default [] scopes) prio;
  mret (t, Some (λ t, Ok (revoke id t))).

End Routing.

(** ** Live proposals

    What a sequence of calls leaves behind, told without the heap: every
    proposal ever made, in the order of the calls, and whether its disposer
    has been called. *)

Record proposal := {
  prop_route : string;
  prop_priority : Z;
  prop_live : bool
}.

Definition revoked (p : proposal) : proposal :=
  {| prop_route := prop_route p; prop_priority := prop_priority p;
     prop_live := false |}.

Fixpoint history (calls : list call) (log : list proposal) : list proposal :=
  match calls with
  | [] => log
  | Propose route priority :: calls =>
      history calls
        (log ++ [{| prop_route := route; prop_priority := priority;
                    prop_live := true |}])
  | Dispose k :: calls => history calls (alter revoked k log)
  end.

Definition live (log : list proposal) : list proposal :=
  filter (λ p, prop_live p = true) log.

(** The page that [propose_index_page] builds for a proposal. *)
Definition page_of (p : proposal) : ProposedIndexPage :=
  {| priority := - prop_priority p; route := prop_route p |}.

(** Every disposer is called after the proposal that returned it, and is
    not called again while a live proposal has the same priority and
    route as its own; in particular this holds when no disposer is called
    twice. *)
Fixpoint sound_disposals (calls : list call) (log : list proposal) : bool :=
  match calls with
  | [] => true
  | Propose route priority :: calls =>
      sound_disposals calls
        (log ++ [{| prop_route := route; prop_priority := priority;
                    prop_live := true |}])
  | Dispose k :: calls =>
      match log !! k with
      | Some p =>
          (prop_live p || bool_decide (page_of p ∉ page_of <$> live log)) &&
          sound_disposals calls (alter revoked k log)
      | None => false
      end
  end.

(** What links the module state and the disposers held by the clients to
    the proposals made so far: the list is a heap, it holds exactly the
    pages of the live proposals, and the [k]-th disposer is the closure for
    the page of the [k]-th proposal. *)
Definition pages_inv {Router} (g : @globals Router)
    (disposers : list (@M Router unit)) (log : list proposal) : Prop :=
  is_heap page_lt (proposed_index_pages g) ∧
  proposed_index_pages g ≡ₚ page_of <$> live log ∧
  disposers = (λ p, disposer (page_of p)) <$> log.

(** Only the list of proposed index pages differs. *)
Definition same_rest {Router} (g g' : @globals Router) : Prop :=
  quart_app g' = quart_app g ∧ exports g' = exports g ∧ routers g' = routers g.

(** [<=] on [str]. *)
Definition str_le (a b : string) : Prop := str_lt b a = false.

(** ** Concrete clients

    Call sequences and library functions used to run the model. *)

(** A [url_for] that maps the route [r] to the path [/r]. *)
Definition path_url_for (r : string) : result string := Ok ("/" +:+ r).

(** The scenario of the specification: two proposals, the better one is
    revoked. *)
Definition debug_docs_calls : list call :=
  [Propose "debug.index" 5; Propose "docs.index" 1].

(** The same scenario; the disposer of the first proposal is then called
    a second time. *)
Definition revoke_twice_calls : list call :=
  debug_docs_calls ++ [Dispose 0; Dispose 0].

(** Two equal proposals; the disposer of the first is called twice. *)
Definition double_dispose_calls : list call :=
  [Propose "a" 0; Propose "a" 0; Dispose 0; Dispose 0].

(** Two equal proposals of priority 7 and one of priority 1; the disposer
    of the first is called twice. *)
Definition stale_winner_calls : list call :=
  [Propose "a" 7; Propose "a" 7; Propose "c" 1; Dispose 0; Dispose 0].

(** Two proposals of the same priority. *)
Definition tie_calls : list call :=
  [Propose "a" 0; Propose "b" 0].

(** Two applications mounted at [/a] and at [/a/b], with priority 0 and no
    restriction of the scopes. *)
Definition mounts_a_ab (A B : webapp) : result Routing.MountTable :=
  '(t, _) ← Routing.mount Routing.empty A "/a" [] 0;
  '(t, _) ← Routing.mount t B "/a/b" [] 0;
  mret t.

(** ** Failures of the server

    A call of [serve] that raises, the times at which the calls of [serve]
    raised according to a trace, and the gaps between these times. *)

(** A call that raises [e] when the clock reads [stopped], the back-off
    sleep after it being over when the clock reads [resumed]. *)
Definition crash (stopped resumed : float) (e : exn) : serve_outcome :=
  {| stopped_at := stopped; raised := Some e; resumed_at := resumed |}.

Definition failure_time (ev : float * event) : option float :=
  match ev.2 with
  | ServeExit (Some _) => Some ev.1
  | _ => None
  end.

Definition failure_times (tr : trace) : list float := omap failure_time tr.

(** The number that a finite float stands for. *)
Definition Q_of_float (x : float) : Q :=
  match Prim2SF x with
  | S754_finite s m e => ((if s then -1 else 1) * (Z.pos m # 1) * (2 # 1) ^ e)%Q
  | _ => 0%Q
  end.

(** The time from each reading to the next one, exactly. *)
Fixpoint gaps (times : list float) : list Q :=
  match times with
  | t :: (t' :: _) as rest => Qred (Q_of_float t' - Q_of_float t) :: gaps rest
  | _ => []
  end.

(** The calls of [serve] of a loop that is entered when the clock reads
    [now], each with the reading of the clock at which it starts. *)
Fixpoint started (now : float) (env : list serve_outcome)
    : list (float * serve_outcome) :=
  match env with
  | [] => []
  | o :: env => (now, o) :: started (resumed_at o) env
  end.

(** The time a call ran, as the handler computes it. *)
Definition uptime (c : float * serve_outcome) : float :=
  (stopped_at c.2 - c.1)%float.

(** A failure of the network. *)
Definition network_down : exn := OSError "Network is unreachable".

(** ** A loaded extension

    The extension loaded with an empty configuration, on top of the router
    of [Routing], and environments of [run]. *)

Definition example_port (service : string) : Z := 5000.

Definition plain_socket_address (a : value * value) : string :=
  str_of_value a.1 +:+ ":" +:+ str_of_value a.2.

Definition loaded : @globals Routing.MountTable :=
  (load Routing.empty Routing.add example_port ∅ initial).2.

(** Four failures of a server started at 0, at 3, 5, 7 and 9: each 2 time
    units after the one before, the back-off taking 1. *)
Definition close_failures : list serve_outcome :=
  [crash 3 4 network_down; crash 5 6 network_down; crash 7 8 network_down;
   crash 9 10 network_down].

(** Five failures of a server started at 0, each after the server ran for
    5 time units. *)
Definition spaced_failures : list serve_outcome :=
  [crash 5 6 network_down; crash 11 12 network_down; crash 17 18 network_down;
   crash 23 24 network_down; crash 29 30 network_down].

(** Four failures of a server started at 0, at 4, 9, 14 and 19: each 5
    time units after the one before, of which the server runs for 4 and
    the back-off takes 1. *)
Definition gap5_failures : list serve_outcome :=
  [crash 4 5 network_down; crash 9 10 network_down; crash 14 15 network_down;
   crash 19 20 network_down].

(** Four failures of a server started at 0 that runs for 0.9, 0.9, 0.9 and
    5.0 time units on a clock that adds them up in floats, the back-off
    taking 1: the readings are 0.9, 1.9, 2.8, 3.8, 4.7, 5.7 and 10.7, the
    floats that Python writes so. *)
Definition rounded_failures : list serve_outcome :=
  [crash 0x1.ccccccccccccdp-1 0x1.e666666666666p+0 network_down;
   crash 0x1.6666666666666p+1 0x1.e666666666666p+1 network_down;
   crash 0x1.2cccccccccccdp+2 0x1.6cccccccccccdp+2 network_down;
   crash 0x1.5666666666666p+3 0x1.7666666666666p+3 network_down].

(** The loaded extension after the proposals of [debug_docs_calls]. *)
Definition with_proposals : @globals Routing.MountTable :=
  (run_calls debug_docs_calls [] loaded).2.

(** A decoder for query strings that are ASCII. *)
Definition decode_ascii (q : list Byte.byte) : result string :=
  Ok (string_of_list_byte q).

(** ** Counting in a trace *)

Definition is_serve (ev : float * event) : bool :=
  match ev.2 with Serve _ _ => true | _ => false end.

Definition is_sleep (ev : float * event) : bool :=
  match ev.2 with Sleep _ => true | _ => false end.


(** The number of events of a kind in a trace. *)
Definition count (kind : float * event → bool) (tr : list (float * event)) : nat :=
  length (filter (λ ev, kind ev = true) tr).

(** A call of [serve] that raised an [Exception] after a time that the
    handler does not find to be 5 time units or more. *)
Definition short_failure (c : float * serve_outcome) : Prop :=
  (∃ e, raised c.2 = Some e ∧ is_Exception e = true) ∧
  (5 <=? uptime c)%float = false.

(** A call of [serve] that raised. *)
Definition failure (c : float * serve_outcome) : Prop :=
  ∃ e, raised c.2 = Some e.

(** A [url_for] that knows the route [docs.index] only. *)
Definition docs_url_for (r : string) : result string :=
  if String.eqb r "docs.index" then Ok "/docs/" else Raise BuildError.

(** A decoder that rejects every query string. *)
Definition decode_nothing (q : list Byte.byte) : result string :=
  Raise UnicodeDecodeError.

(** ** Registries

    [flockwave/server/registries/base.py]: the interface [Registry], its
    implementation [RegistryBase] over a dictionary, and
    [find_in_registry]. *)

Module Registries.

(** What a lookup can raise: [KeyError], or anything else. *)
Inductive lookup_exn :=
  | KeyError
  | OtherError (e : exn).

(** The outcome of a call that may raise these. *)
Inductive lookup (A : Type) :=
  | Returns (a : A)
  | Raises (e : lookup_exn).
Arguments Returns {A} a.
Arguments Raises {A} e.

(** The abstract methods of [Registry]; entry identifiers are strings. *)
Class Registry (R E : Type) := {
  contains : R → string → bool;
  find_by_id : R → string → lookup E;
  ids : R → list string;
  num_entries : R → nat
}.

Section Registry.
Context `{Registry R E}.

Definition __contains__ (self : R) (entry_id : string) : bool :=
  contains self entry_id.

Definition __getitem__ (self : R) (entry_id : string) : lookup E :=
  find_by_id self entry_id.

Definition __len__ (self : R) : nat := num_entries self.

(** [find_in_registry]; [add_failure] is the method of the response
    object.  The result is what the function returns and the response
    afterwards. *)
Definition find_in_registry {Response : Type}
    (add_failure : Response → string → option string → Response)
    (registry : R) (entry_id : string) (response : option Response)
    (failure_reason : option string) : lookup (option E) * option Response :=
  match find_by_id registry entry_id with
  | Returns entry => (Returns (Some entry), response)
  | Raises KeyError =>
      (Returns None,
       match response with
       | Some response => Some (add_failure response entry_id failure_reason)
       | None => None
       end)
  | Raises e => (Raises e, response)
  end.
End Registry.

(** [RegistryBase]: the dictionary [_entries]. *)
Record RegistryBase (E : Type) := { _entries : gmap string E }.
Arguments _entries {E} _.

#[global] Instance str_le_dec a b : Decision (str_le a b).
Proof. unfold str_le. apply _. Defined.

#[global] Instance RegistryBase_Registry {E} : Registry (RegistryBase E) E := {
  contains self entry_id := bool_decide (is_Some (_entries self !! entry_id));
  find_by_id self entry_id :=
    match _entries self !! entry_id with
    | Some entry => Returns entry
    | None => Raises KeyError
    end;
  ids self := merge_sort str_le (map_to_list (_entries self)).*1;
  num_entries self := size (_entries self)
}.

(** A response that collects the failures added to it. *)
Definition record_failure (response : list (string * option string))
    (entry_id : string) (reason : option string) : list (string * option string) :=
  response ++ [(entry_id, reason)].

(** A registry of two entries. *)
Definition two_entries : RegistryBase nat :=
  {| _entries := {[ "b" := 2; "a" := 1 ]} |}.

End Registries.

(** ** The drone show status packet

    [flockwave/server/ext/crazyflie/crtp_extensions.py]: the enumerations
    and [DroneShowStatus].  A Python [float] that is the quotient of an
    integer and a float constant is kept as that quotient, unevaluated;
    [battery_percentage], which computes with floats, is not modelled. *)

Module Crtp.

Inductive DroneShowExecutionStage :=
  | UNKNOWN
  | IDLE
  | WAIT_FOR_PREFLIGHT_CHECKS
  | WAIT_FOR_START_SIGNAL
  | WAIT_FOR_TAKEOFF_TIME
  | TAKEOFF
  | PERFORMING_SHOW
  | LANDING
  | LANDED
  | LANDING_LOW_BATTERY
  | EXHAUSTED
  | ERROR.

#[global] Instance stage_eq_dec : EqDecision DroneShowExecutionStage.
Proof. solve_decision. Defined.

(** The integer value of a member. *)
Definition stage_value (s : DroneShowExecutionStage) : Z :=
  match s with
  | UNKNOWN => 0
  | IDLE => 1
  | WAIT_FOR_PREFLIGHT_CHECKS => 2
  | WAIT_FOR_START_SIGNAL => 3
  | WAIT_FOR_TAKEOFF_TIME => 4
  | TAKEOFF => 5
  | PERFORMING_SHOW => 6
  | LANDING => 7
  | LANDED => 8
  | LANDING_LOW_BATTERY => 9
  | EXHAUSTED => 10
  | ERROR => 11
  end.

(** [DroneShowExecutionStage(n)]; [None] stands for the [ValueError] of a
    value that no member has. *)
Definition stage_of_value (n : Z) : option DroneShowExecutionStage :=
  match n with
  | 0 => Some UNKNOWN
  | 1 => Some IDLE
  | 2 => Some WAIT_FOR_PREFLIGHT_CHECKS
  | 3 => Some WAIT_FOR_START_SIGNAL
  | 4 => Some WAIT_FOR_TAKEOFF_TIME
  | 5 => Some TAKEOFF
  | 6 => Some PERFORMING_SHOW
  | 7 => Some LANDING
  | 8 => Some LANDED
  | 9 => Some LANDING_LOW_BATTERY
  | 10 => Some EXHAUSTED
  | 11 => Some ERROR
  | _ => None
  end%Z.

Definition _execution_stage_explanations : list string :=
  [""; ""; "Waiting for preflight checks"; "Ready to start";
   "Waiting for takeoff time"; "Takeoff"; "Performing"; "Landing"; "Landed";
   "Low battery"; "Battery exhausted"; "Error"; ""; ""; ""; ""].

Definition get_short_explanation (self : DroneShowExecutionStage) : result string :=
  getitem _execution_stage_explanations (Z.to_nat (stage_value self)).

Definition is_likely_airborne (self : DroneShowExecutionStage) : bool :=
  bool_decide (self ∈ [TAKEOFF; PERFORMING_SHOW; LANDING; LANDING_LOW_BATTERY]).

Definition is_idle (self : DroneShowExecutionStage) : bool :=
  bool_decide (self ∈ [IDLE; WAIT_FOR_PREFLIGHT_CHECKS; WAIT_FOR_START_SIGNAL; LANDED]).

(** The members of [DroneShowStatusFlag]. *)
Definition BATTERY_CHARGING : Z := 1.
Definition HIGH_LEVEL_COMMANDER_ENABLED : Z := 2.
Definition DRONE_SHOW_MODE_ENABLED : Z := 4.
Definition AIRBORNE : Z := 8.
Definition TESTING_MODE : Z := 16.
Definition DISARMED : Z := 32.

(** The float [num / den], for an integer [num] and the float constant
    [den]. *)
Record quotient := { num : Z; den : Z }.

Record DroneShowStatus := {
  battery_voltage : quotient;
  flags : Z;
  preflight_checks : list Z;
  position : option (quotient * quotient * quotient);
  light : Z;
  show_execution_stage : DroneShowExecutionStage;
  yaw : Z
}.

Definition airborne (self : DroneShowStatus) : Z := Z.land (flags self) AIRBORNE.

Definition armed (self : DroneShowStatus) : bool :=
  negb (negb (Z.land (flags self) DISARMED =? 0)%Z).

Definition charging (self : DroneShowStatus) : Z :=
  Z.land (flags self) BATTERY_CHARGING.

Definition has_flag (self : DroneShowStatus) (flag : Z) : bool :=
  negb (Z.land (flags self) flag =? 0)%Z.

Definition mode (self : DroneShowStatus) : string :=
  if negb (Z.land (flags self) DRONE_SHOW_MODE_ENABLED =? 0)%Z then "show"
  else if negb (Z.land (flags self) HIGH_LEVEL_COMMANDER_ENABLED =? 0)%Z then "auto"
  else "----".

Definition testing (self : DroneShowStatus) : Z :=
  Z.land (flags self) TESTING_MODE.

(** What [from_bytes] can raise: an exception of the language, or
    [struct.error]. *)
Inductive unpack_exn :=
  | PyError (e : exn)
  | StructError.

Inductive unpacked (A : Type) :=
  | Unpacked (a : A)
  | Failed (e : unpack_exn).
Arguments Unpacked {A} a.
Arguments Failed {A} e.

(** The value of a byte, as indexing [bytes] gives it. *)
Definition byte_value (b : Byte.byte) : Z := Z.of_N (Byte.to_N b).

(** The formats [H] and [h] of [struct], little-endian. *)
Definition unsigned_short (lo hi : Byte.byte) : Z :=
  byte_value lo + 256 * byte_value hi.

Definition signed_short (lo hi : Byte.byte) : Z :=
  let u := unsigned_short lo hi in
  if (u <? 32768)%Z then u else (u - 65536)%Z.

(** [Struct("<HhhhhH").unpack]: exactly twelve bytes, or [struct.error]. *)
Definition unpack_HhhhhH (data : list Byte.byte) : unpacked (Z * Z * Z * Z * Z * Z) :=
  match data with
  | [c0; c1; x0; x1; y0; y1; z0; z1; w0; w1; l0; l1] =>
      Unpacked (unsigned_short c0 c1, signed_short x0 x1, signed_short y0 y1,
                signed_short z0 z1, signed_short w0 w1, unsigned_short l0 l1)
  | _ => Failed StructError
  end.

(** [data[i]]. *)
Definition byte_at (data : list Byte.byte) (i : nat) : unpacked Z :=
  match data !! i with
  | Some b => Unpacked (byte_value b)
  | None => Failed (PyError IndexError)
  end.

(** [DroneShowStatus.from_bytes]; it returns [None] for a version it does
    not know. *)
Definition from_bytes (data : list Byte.byte) : unpacked (option DroneShowStatus) :=
  match byte_at data 0 with
  | Failed e => Failed e
  | Unpacked first =>
      let version := Z.shiftr first 4 in
      if negb (version =? 0)%Z then Unpacked None
      else
        let stage := default ERROR (stage_of_value (Z.land first 15)) in
        match unpack_HhhhhH (take 12 (drop 3 data)) with
        | Failed e => Failed e
        | Unpacked (checks, x, y, z, yaw, light) =>
            let checks :=
              (λ index, Z.land (Z.shiftr checks (Z.of_nat index * 2)) 3) <$> seq 0 8 in
            match byte_at data 1 with
            | Failed e => Failed e
            | Unpacked voltage =>
                match byte_at data 2 with
                | Failed e => Failed e
                | Unpacked flags =>
                    Unpacked (Some
                      {| battery_voltage := {| num := voltage; den := 10 |};
                         flags := flags;
                         preflight_checks := checks;
                         position :=
                           Some ({| num := x; den := 1000 |},
                                 {| num := y; den := 1000 |},
                                 {| num := z; den := 1000 |});
                         light := light;
                         show_execution_stage := stage;
                         yaw := yaw |})
                end
            end
        end
  end.

(** The value of the checks word that a tuple of checks stands for. *)
Fixpoint checks_word (checks : list Z) : Z :=
  match checks with
  | [] => 0
  | c :: checks => c + 4 * checks_word checks
  end.

(** A status packet: stage 6, 3.9 V, airborne in show mode. *)
Definition sample_packet : list Byte.byte :=
  [Byte.x06; Byte.x27; Byte.x0c; Byte.xff; Byte.xff; Byte.xe8; Byte.x03;
   Byte.x18; Byte.xfc; Byte.xd0; Byte.x07; Byte.x5a; Byte.x00; Byte.x07;
   Byte.x00].

End Crtp.

(** * Properties *)

(** ** Correctness of [heapq] *)

Lemma parent_spec j : 0 < j → j = 2 * parent j + 1 ∨ j = 2 * parent j + 2.
Proof.
  intros Hj. unfold parent.
  pose proof (Nat.div_mod_eq (j - 1) 2) as Hd.
  pose proof (Nat.mod_upper_bound (j - 1) 2) as Hm. lia.
Qed.

Lemma parent_lt j : 0 < j → parent j < j.
Proof. intros Hj. destruct (parent_spec j Hj); lia. Qed.

Lemma parent_left p : parent (2 * p + 1) = p.
Proof.
  assert (0 < 2 * p + 1) as H by lia.
  destruct (parent_spec _ H); lia.
Qed.

Lemma parent_right p : parent (2 * p + 2) = p.
Proof.
  assert (0 < 2 * p + 2) as H by lia.
  destruct (parent_spec _ H); lia.
Qed.

Lemma half_bound n : n ≤ 2 * (n / 2) + 1.
Proof.
  pose proof (Nat.div_mod_eq n 2) as Hd.
  pose proof (Nat.mod_upper_bound n 2) as Hm. lia.
Qed.

Lemma half_le n : n / 2 ≤ n.
Proof. pose proof (Nat.div_mod_eq n 2). lia. Qed.


Lemma desc_le s q : desc s q → s ≤ q.
Proof.
  induction 1 as [|c Hc _ IH]; [lia|].
  pose proof (parent_lt c Hc). lia.
Qed.

Lemma desc_parent s q : desc s q → s < q → 0 < q ∧ desc s (parent q).
Proof. destruct 1; [lia|auto]. Qed.

Lemma desc_parent_le s q : desc s q → s < q → s ≤ parent q.
Proof. intros Hd Hq. apply desc_le, desc_parent; done. Qed.

Lemma desc_root q : desc 0 q.
Proof.
  induction (lt_wf q) as [q _ IH].
  destruct (decide (q = 0)) as [->|Hq]; [constructor|].
  apply desc_step; [lia|]. apply IH, parent_lt. lia.
Qed.

(** Writing [x] over position [j] after moving the item of [j] to position
    [i] is a transposition of the list that has [x] at [i]. *)
Lemma insert_swap_perm {A} (l : list A) i j x b :
  i ≠ j → i < length l → l !! j = Some b →
  <[j := x]> (<[i := b]> l) ≡ₚ <[i := x]> l.
Proof.
  intros Hij Hi Hj. pose proof (lookup_lt_Some _ _ _ Hj) as Hjl.
  apply Permutation_inj. split; [by rewrite !length_insert|].
  exists (λ n, if decide (n = j) then i else if decide (n = i) then j else n).
  split.
  - intros n m. repeat case_decide; lia.
  - intros n. repeat case_decide; subst.
    + rewrite !list_lookup_insert_eq; rewrite ?length_insert; done.
    + rewrite list_lookup_insert_ne by done.
      rewrite list_lookup_insert_eq by done.
      by rewrite list_lookup_insert_ne.
    + by rewrite !list_lookup_insert_ne.
Qed.

Section heapq_spec.
Context {A : Type} (lt : A → A → bool).

(** [<] is a strict weak order, as Python's sorting and heap functions
    assume. *)
Hypothesis lt_asym : ∀ a b, lt a b = true → lt b a = false.
Hypothesis lt_negtrans : ∀ a b c, lt b a = false → lt c b = false → lt c a = false.


#[local] Abbreviation le := (le lt).
#[local] Abbreviation heap_above := (heap_above lt).
#[local] Abbreviation is_heap := (is_heap lt).
#[local] Abbreviation hole_inv := (hole_inv lt).
#[local] Abbreviation above_hole := (above_hole lt).

Lemma le_refl a : le a a.
Proof.
  unfold le. destruct (lt a a) eqn:E; [|done].
  pose proof (lt_asym _ _ E). congruence.
Qed.

Lemma le_trans a b c : le a b → le b c → le a c.
Proof. unfold le. intros H1 H2. by apply (lt_negtrans a b c). Qed.

Lemma lt_le a b : lt a b = true → le a b.
Proof. apply lt_asym. Qed.





Lemma hole_inv_insert s q l v : hole_inv s q l → hole_inv s q (<[q := v]> l).
Proof.
  intros [Ha Hb]. split.
  - intros j x y Hj Hs Hjq Hpq. rewrite !list_lookup_insert_ne by done.
    by apply Ha.
  - intros Hsq c x y Hc Hpc.
    assert (parent q < q) by (apply parent_lt; lia).
    assert (parent c < c) by (by apply parent_lt).
    rewrite !list_lookup_insert_ne by lia. by apply Hb.
Qed.

Lemma heap_above_fill s q l v :
  hole_inv s q l → above_hole q v l → q < length l →
  (s < q → ∀ x, l !! parent q = Some x → le x v) →
  heap_above s (<[q := v]> l).
Proof.
  intros [Ha Hb] Hc Hq Hp j x y Hj Hs.
  pose proof (parent_lt j Hj).
  destruct (decide (j = q)) as [->|Hjq].
  - rewrite list_lookup_insert_eq by done.
    rewrite list_lookup_insert_ne by lia.
    intros Hx [= <-]. apply Hp; [lia|done].
  - rewrite (list_lookup_insert_ne _ q j) by done.
    destruct (decide (parent j = q)) as [Hpq|Hpq].
    + rewrite Hpq, list_lookup_insert_eq by done.
      intros [= <-] Hy. by apply (Hc j).
    + rewrite list_lookup_insert_ne by done. by apply Ha.
Qed.

Lemma siftdown_loop_spec s fuel : ∀ heap q newitem,
  q ≤ fuel → q < length heap → desc s q →
  hole_inv s q heap → above_hole q newitem heap →
  ∃ h', siftdown_loop lt fuel heap s q newitem = Ok h' ∧
        heap_above s h' ∧ h' ≡ₚ <[q := newitem]> heap.
Proof.
  induction fuel as [|fuel IH]; intros heap q newitem Hfuel Hq Hd Hinv Hc.
  - assert (q = 0) as -> by lia. pose proof (desc_le _ _ Hd).
    cbn [siftdown_loop]. rewrite decide_False by lia.
    unfold setitem. rewrite decide_True by done.
    eexists; split; [done|]. split; [|done].
    apply heap_above_fill; auto. lia.
  - cbn [siftdown_loop]. case_decide as Hsq.
    + destruct (desc_parent _ _ Hd Hsq) as [Hq0 Hdp].
      pose proof (parent_lt q Hq0) as Hpq.
      pose proof (desc_le _ _ Hdp) as Hsp.
      destruct (lookup_lt_is_Some_2 heap (parent q)) as [par Hpar]; [lia|].
      unfold getitem at 1. rewrite Hpar. simpl.
      destruct (lt newitem par) eqn:Hlt.
      * unfold setitem at 1. rewrite decide_True by done. simpl.
        destruct Hinv as [Ha Hb].
        destruct (IH (<[q := par]> heap) (parent q) newitem)
          as (h' & Hrun & Hheap & Hperm).
        -- lia.
        -- rewrite length_insert. lia.
        -- done.
        -- split.
           ++ intros j x y Hj Hs Hjp Hpjp.
              pose proof (parent_lt j Hj).
              destruct (decide (j = q)) as [->|Hjq]; [done|].
              rewrite (list_lookup_insert_ne _ q j) by done.
              destruct (decide (parent j = q)) as [Hpj|Hpj].
              ** rewrite Hpj, list_lookup_insert_eq by done.
                 intros [= <-] Hy. by apply (Hb Hsq j).
              ** rewrite list_lookup_insert_ne by done. by apply Ha.
           ++ intros Hsp' c x y Hc0 Hpc.
              destruct (desc_parent _ _ Hdp Hsp') as [Hp0 Hdpp].
              pose proof (parent_lt _ Hp0).
              pose proof (desc_le _ _ Hdpp).
              rewrite list_lookup_insert_ne by lia. intros Hx.
              assert (le x par) as Hxp by (apply (Ha (parent q)); auto; lia).
              destruct (decide (c = q)) as [->|Hcq].
              ** rewrite list_lookup_insert_eq by done. by intros [= <-].
              ** rewrite list_lookup_insert_ne by done. intros Hy.
                 apply le_trans with par; [done|].
                 apply (Ha c); auto; rewrite ?Hpc; auto; lia.
        -- intros c y Hc0 Hpc.
           destruct (decide (c = q)) as [->|Hcq].
           ++ rewrite list_lookup_insert_eq by done. intros [= <-].
              by apply lt_le.
           ++ rewrite list_lookup_insert_ne by done. intros Hy.
              apply le_trans with par; [by apply lt_le|].
              apply (Ha c); auto; rewrite ?Hpc; auto; lia.
        -- exists h'. split; [done|]. split; [done|].
           rewrite Hperm. apply insert_swap_perm; auto. lia.
      * unfold setitem. rewrite decide_True by done.
        eexists; split; [done|]. split; [|done].
        apply heap_above_fill; auto.
        intros _ x Hx. unfold le. congruence.
    + pose proof (desc_le _ _ Hd).
      unfold setitem. rewrite decide_True by done.
      eexists; split; [done|]. split; [|done].
      apply heap_above_fill; auto. lia.
Qed.

Lemma siftdown_spec s heap q newitem :
  q < length heap → desc s q → heap !! q = Some newitem →
  hole_inv s q heap → above_hole q newitem heap →
  ∃ h', _siftdown lt heap s q = Ok h' ∧ heap_above s h' ∧ h' ≡ₚ heap.
Proof.
  intros Hq Hd Hnew Hinv Hc. unfold _siftdown, getitem. rewrite Hnew. simpl.
  destruct (siftdown_loop_spec s q heap q newitem) as (h' & Hrun & Hh & Hp);
    auto.
  exists h'. rewrite list_insert_id in Hp by done. done.
Qed.

Lemma smaller_child_spec heap pos :
  2 * pos + 1 < length heap →
  ∃ c x, smaller_child lt heap (length heap) (2 * pos + 1) = Ok c ∧
    0 < c ∧ parent c = pos ∧ heap !! c = Some x ∧
    ∀ c' y, 0 < c' → parent c' = pos → heap !! c' = Some y → le x y.
Proof.
  intros Hlen. unfold smaller_child.
  destruct (lookup_lt_is_Some_2 heap (2 * pos + 1)) as [l Hl]; [done|].
  assert (∀ c', 0 < c' → parent c' = pos →
            c' = 2 * pos + 1 ∨ c' = 2 * pos + 1 + 1) as Hkids.
  { intros c' Hc' Hp. destruct (parent_spec c' Hc'); lia. }
  case_decide as Hr.
  - destruct (lookup_lt_is_Some_2 heap (2 * pos + 1 + 1)) as [r Hrr]; [done|].
    unfold getitem. rewrite Hl, Hrr. simpl.
    destruct (lt l r) eqn:Hlt; simpl.
    + exists (2 * pos + 1), l. split; [done|]. split; [lia|].
      split; [apply parent_left|]. split; [done|].
      intros c' y Hc' Hp Hy. destruct (Hkids c' Hc' Hp) as [-> | ->].
      * assert (y = l) as -> by congruence. apply le_refl.
      * assert (y = r) as -> by congruence. by apply lt_le.
    + exists (2 * pos + 1 + 1), r. split; [done|]. split; [lia|].
      split; [replace (2 * pos + 1 + 1) with (2 * pos + 2) by lia;
              apply parent_right|].
      split; [done|].
      intros c' y Hc' Hp Hy. destruct (Hkids c' Hc' Hp) as [-> | ->].
      * assert (y = l) as -> by congruence. done.
      * assert (y = r) as -> by congruence. apply le_refl.
  - exists (2 * pos + 1), l. split; [done|]. split; [lia|].
    split; [apply parent_left|]. split; [done|].
    intros c' y Hc' Hp Hy. destruct (Hkids c' Hc' Hp) as [-> | ->].
    + assert (y = l) as -> by congruence. apply le_refl.
    + apply lookup_lt_Some in Hy. lia.
Qed.

Lemma siftup_loop_spec s fuel : ∀ heap pos,
  length heap ≤ fuel + pos → pos < length heap → desc s pos →
  hole_inv s pos heap →
  ∃ h' p', siftup_loop lt fuel heap (length heap) pos (2 * pos + 1) = Ok (h', p') ∧
    length h' = length heap ∧ p' < length heap ∧ desc s p' ∧
    hole_inv s p' h' ∧ length heap ≤ 2 * p' + 1 ∧
    ∀ v, <[p' := v]> h' ≡ₚ <[pos := v]> heap.
Proof.
  induction fuel as [|fuel IH]; intros heap pos Hfuel Hpos Hd Hinv.
  - lia.
  - cbn [siftup_loop]. case_decide as Hchild.
    + destruct (smaller_child_spec heap pos Hchild)
        as (c & x & -> & Hc0 & Hpc & Hx & Hmin).
      pose proof (lookup_lt_Some _ _ _ Hx) as Hclen.
      pose proof (parent_lt c Hc0) as Hcpos. rewrite Hpc in Hcpos.
      pose proof (desc_le _ _ Hd) as Hspos.
      destruct Hinv as [Ha Hb].
      rsimpl. unfold getitem. rewrite Hx. rsimpl.
      unfold setitem. rewrite decide_True by done. rsimpl.
      destruct (IH (<[pos := x]> heap) c)
        as (h' & p' & Hrun & Hlen & Hp' & Hdp' & Hinv' & Hleaf & Hperm).
      * rewrite length_insert. lia.
      * rewrite length_insert. done.
      * apply desc_step; [done|]. by rewrite Hpc.
      * split.
        -- intros j a b Hj Hs Hjc Hpjc. pose proof (parent_lt j Hj).
           destruct (decide (j = pos)) as [->|Hjp].
           ++ rewrite list_lookup_insert_eq by done.
              rewrite list_lookup_insert_ne by lia.
              intros Ha' [= <-]. apply (Hb ltac:(lia) c); auto.
           ++ rewrite (list_lookup_insert_ne _ pos j) by done.
              destruct (decide (parent j = pos)) as [Hpj|Hpj].
              ** rewrite Hpj, list_lookup_insert_eq by done.
                 intros [= <-] Hb'. by apply (Hmin j).
              ** rewrite list_lookup_insert_ne by done. by apply Ha.
        -- intros _ d a b Hd0 Hpd. pose proof (parent_lt d Hd0).
           rewrite Hpc, list_lookup_insert_eq by done.
           rewrite list_lookup_insert_ne by lia.
           intros [= <-] Hb'.
           apply (Ha d); auto; rewrite ?Hpd; auto; lia.
      * rewrite length_insert in *. rewrite Hrun.
        exists h', p'. split_and!; auto.
        intros v. rewrite Hperm. apply insert_swap_perm; auto. lia.
    + exists heap, pos. split_and!; auto. lia.
Qed.

(** One step of [heapify]: sifting at [s] extends the ordered region. *)
Lemma siftup_spec s heap :
  s < length heap → heap_above (S s) heap →
  ∃ h', _siftup lt heap s = Ok h' ∧ heap_above s h' ∧ h' ≡ₚ heap.
Proof.
  intros Hs Hheap. unfold _siftup.
  destruct (lookup_lt_is_Some_2 heap s Hs) as [newitem Hnew].
  unfold getitem at 1. rewrite Hnew. rsimpl.
  destruct (siftup_loop_spec s (length heap) heap s)
    as (h1 & p' & -> & Hlen & Hp' & Hdp' & Hinv' & Hleaf & Hperm).
  - lia.
  - done.
  - constructor.
  - split; [|lia]. intros j x y Hj Hsj Hjs Hpjs. apply Hheap; auto. lia.
  - rsimpl. unfold setitem. rewrite decide_True by lia. rsimpl.
    destruct (siftdown_spec s (<[p' := newitem]> h1) p' newitem)
      as (h' & Hrun & Hh & Hp).
    + rewrite length_insert. lia.
    + done.
    + apply list_lookup_insert_eq. lia.
    + by apply hole_inv_insert.
    + intros c y Hc Hpc Hy. apply lookup_lt_Some in Hy.
      rewrite length_insert in Hy. destruct (parent_spec c Hc); lia.
    + exists h'. split; [done|]. split; [done|].
      rewrite Hp, Hperm. by rewrite list_insert_id.
Qed.

Lemma heap_above_perm_length s (l : list A) :
  length l ≤ 2 * s + 1 → heap_above s l.
Proof.
  intros Hlen j x y Hj Hs _ Hy. apply lookup_lt_Some in Hy.
  destruct (parent_spec j Hj); lia.
Qed.

Lemma heapify_loop_spec k : ∀ x,
  k ≤ length x → heap_above k x →
  ∃ h, heapify_loop lt k x = Ok h ∧ is_heap h ∧ h ≡ₚ x.
Proof.
  induction k as [|i IH]; intros x Hk Hx.
  - by exists x.
  - cbn [heapify_loop].
    destruct (siftup_spec i x) as (h1 & -> & Hh1 & Hp1); [lia|done|].
    rsimpl. destruct (IH h1) as (h & Hrun & Hh & Hp); [|done|].
    + rewrite Hp1. lia.
    + exists h. split; [done|]. split; [done|]. by rewrite Hp.
Qed.

(** [heapify] turns any list into a heap with the same elements. *)
Theorem heapify_spec x :
  ∃ h, heapify lt x = Ok h ∧ is_heap h ∧ h ≡ₚ x.
Proof.
  unfold heapify. apply heapify_loop_spec.
  - apply half_le.
  - apply heap_above_perm_length, half_bound.
Qed.

(** [heappush] keeps a heap a heap and adds exactly the new item. *)
Theorem heappush_spec heap item :
  is_heap heap →
  ∃ h, heappush lt heap item = Ok h ∧ is_heap h ∧ h ≡ₚ item :: heap.
Proof.
  intros Hheap. unfold heappush. rewrite length_app. simpl.
  replace (length heap + 1 - 1) with (length heap) by lia.
  destruct (siftdown_spec 0 (heap ++ [item]) (length heap) item)
    as (h & Hrun & Hh & Hp).
  - rewrite length_app. simpl. lia.
  - apply desc_root.
  - by rewrite lookup_app_r, Nat.sub_diag.
  - split.
    + intros j x y Hj _ Hjq Hpq Hx Hy.
      pose proof (parent_lt j Hj).
      assert (j < length heap).
      { apply lookup_lt_Some in Hy. rewrite length_app in Hy. simpl in Hy. lia. }
      rewrite lookup_app_l in Hx, Hy by lia. by apply (Hheap j); auto; lia.
    + intros _ c x y Hc Hpc _ Hy. apply lookup_lt_Some in Hy.
      rewrite length_app in Hy. simpl in Hy. pose proof (parent_lt c Hc). lia.
  - intros c y Hc Hpc Hy. apply lookup_lt_Some in Hy.
    rewrite length_app in Hy. simpl in Hy. pose proof (parent_lt c Hc). lia.
  - exists h. split; [done|]. split; [done|].
    rewrite Hp. by rewrite Permutation_app_comm.
Qed.

(** The first element of a heap is a least element. *)
Theorem heap_min heap m :
  is_heap heap → heap !! 0 = Some m → ∀ y, y ∈ heap → le m y.
Proof.
  intros Hheap Hm y Hy. apply list_elem_of_lookup in Hy as [j Hj].
  revert y Hj. induction (lt_wf j) as [j _ IH]. intros y Hj.
  destruct (decide (j = 0)) as [->|Hj0].
  - assert (y = m) as -> by congruence. apply le_refl.
  - assert (0 < j) as Hpos by lia. pose proof (parent_lt j Hpos) as Hp.
    destruct (lookup_lt_is_Some_2 heap (parent j)) as [x Hx].
    { apply lookup_lt_Some in Hj. lia. }
    apply le_trans with x; [by apply (IH (parent j))|].
    apply (Hheap j); auto. lia.
Qed.
End heapq_spec.

(** ** The order of proposed index pages *)

Lemma str_lt_asym a b : str_lt a b = true → str_lt b a = false.
Proof.
  unfold str_lt, String.ltb. rewrite (String.compare_antisym b a).
  by destruct (String.compare a b).
Qed.

Lemma str_lt_total a b : str_lt a b = false → str_lt b a = false → a = b.
Proof.
  unfold str_lt, String.ltb. rewrite (String.compare_antisym b a).
  destruct (String.compare a b) eqn:E; try done.
  intros _ _. by apply String.compare_eq_iff.
Qed.

Lemma str_lt_trans a b c : str_lt a b = true → str_lt b c = true → str_lt a c = true.
Proof.
  unfold str_lt, String.ltb. intros H1 H2.
  assert (String_as_OT.lt a c) as H.
  { apply String_as_OT.lt_trans with b; apply String_as_OT.cmp_lt;
      unfold String_as_OT.cmp.
    - by destruct (String.compare a b).
    - by destruct (String.compare b c). }
  apply String_as_OT.cmp_lt in H. unfold String_as_OT.cmp in H. by rewrite H.
Qed.

Lemma str_lt_negtrans a b c :
  str_lt b a = false → str_lt c b = false → str_lt c a = false.
Proof.
  intros H1 H2. destruct (str_lt c a) eqn:Hca; [|done].
  destruct (str_lt a b) eqn:Hab.
  - by rewrite (str_lt_trans c a b) in H2.
  - assert (a = b) as -> by (by apply str_lt_total). congruence.
Qed.

Lemma page_lt_asym a b : page_lt a b = true → page_lt b a = false.
Proof.
  unfold page_lt. repeat case_decide; try congruence; try lia.
  apply str_lt_asym.
Qed.

Lemma page_lt_negtrans a b c :
  page_lt b a = false → page_lt c b = false → page_lt c a = false.
Proof.
  unfold page_lt. repeat case_decide; try congruence;
    rewrite ?Z.ltb_ge; try lia; try done.
  apply str_lt_negtrans.
Qed.

Lemma page_lt_total a b : page_lt a b = false → page_lt b a = false → a = b.
Proof.
  destruct a as [pa ra], b as [pb rb]. unfold page_lt. simpl.
  repeat case_decide; subst; try congruence; rewrite ?Z.ltb_ge; try lia.
  intros Hab Hba. by apply str_lt_total in Hab.
Qed.

(** ** Removing a page from the list *)

Lemma list_index_elem {A} `{EqDecision A} (l : list A) x :
  x ∈ l → ∃ i, list_index l x = Ok i ∧ l !! i = Some x.
Proof.
  induction l as [|y l IH]; [by intros ?%elem_of_nil|].
  intros Hx. simpl. case_decide as Hy.
  - exists 0. by subst.
  - apply elem_of_cons in Hx as [->|Hx]; [done|].
    destruct (IH Hx) as (i & -> & Hi). by exists (S i).
Qed.

Lemma list_index_not_elem {A} `{EqDecision A} (l : list A) x :
  x ∉ l → list_index l x = Raise ValueError.
Proof.
  induction l as [|y l IH]; [done|].
  intros Hx. apply not_elem_of_cons in Hx as [Hxy Hx].
  simpl. rewrite decide_False by done. by rewrite IH.
Qed.

Lemma snoc_insert_perm {A} (l : list A) i x y :
  l !! i = Some x → l ++ [y] ≡ₚ x :: <[i := y]> l.
Proof.
  revert i. induction l as [|a l IH]; intros [|i] Hi; simplify_eq/=.
  - constructor. by rewrite Permutation_app_comm.
  - rewrite (IH i Hi). apply perm_swap.
Qed.

(** [l[i] = l[-1]; l.pop()] removes exactly the element at [i]. *)
Lemma overwrite_pop_perm {A} (l : list A) i x y :
  l !! i = Some x → last l = Some y →
  l ≡ₚ x :: take (length l - 1) (<[i := y]> l).
Proof.
  intros Hi [l' ->]%last_Some.
  rewrite length_app. simpl.
  replace (length l' + 1 - 1) with (length l') by lia.
  destruct (decide (i < length l')) as [Hlt|Hge].
  - rewrite insert_app_l by done. rewrite lookup_app_l in Hi by done.
    rewrite take_app_length' by (by rewrite length_insert).
    by apply snoc_insert_perm.
  - assert (i = length l') as ->.
    { apply lookup_lt_Some in Hi. rewrite length_app in Hi. simpl in Hi. lia. }
    rewrite lookup_app_r, Nat.sub_diag in Hi by done. simplify_eq/=.
    rewrite insert_app_r_alt, Nat.sub_diag by done. simpl.
    rewrite take_app_length. by rewrite Permutation_app_comm.
Qed.

(** The disposer of a page that is in the list removes one copy of it and
    leaves a heap. *)
Lemma disposer_body_spec page pages :
  page ∈ pages →
  ∃ pages', disposer_body page pages = Ok pages' ∧
    is_heap page_lt pages' ∧ pages ≡ₚ page :: pages'.
Proof.
  intros Hin. unfold disposer_body.
  destruct (list_index_elem pages page Hin) as (i & -> & Hi). rsimpl.
  rewrite bool_decide_true by lia.
  pose proof (lookup_lt_Some _ _ _ Hi) as Hlen.
  destruct (last pages) as [y|] eqn:Hlast.
  2:{ apply last_None in Hlast. subst. by apply elem_of_nil in Hin. }
  unfold getlast. rewrite Hlast. rsimpl.
  unfold setitem. rewrite decide_True by done. rsimpl.
  unfold pop. destruct (<[i := y]> pages) eqn:Hins.
  { apply (f_equal length) in Hins. rewrite length_insert in Hins.
    simpl in Hins. lia. }
  rewrite <- Hins. rsimpl. rewrite length_insert.
  destruct (heapify_spec page_lt page_lt_asym page_lt_negtrans
              (take (length pages - 1) (<[i := y]> pages)))
    as (h & -> & Hheap & Hperm).
  exists h. split; [done|]. split; [done|].
  rewrite Hperm. by apply overwrite_pop_perm.
Qed.

(** The disposer of a page that is not in the list raises [ValueError],
    from [list.index]. *)
Lemma disposer_body_missing page pages :
  page ∉ pages → disposer_body page pages = Raise ValueError.
Proof.
  intros Hnot. unfold disposer_body. by rewrite list_index_not_elem.
Qed.

(** ** The heap of proposed index pages under a sequence of calls *)

Lemma live_snoc (log : list proposal) p :
  prop_live p = true → live (log ++ [p]) = live log ++ [p].
Proof.
  intros Hp. unfold live. rewrite filter_app. f_equal.
  rewrite filter_cons_True by done. done.
Qed.

Lemma live_alter_revoked (log : list proposal) (k : nat) p :
  log !! k = Some p → prop_live p = true →
  live log ≡ₚ p :: live (alter revoked k log).
Proof.
  unfold live. revert k. induction log as [|a log IH]; intros [|k] Hk Hp;
    simplify_eq/=.
  - rewrite filter_cons_True by done.
    by rewrite filter_cons_False by (by simpl).
  - destruct (decide (prop_live a = true)) as [Ha|Ha].
    + rewrite !filter_cons_True by done.
      rewrite (IH k Hk Hp). apply perm_swap.
    + rewrite !filter_cons_False by done. by apply IH.
Qed.

Lemma page_of_revoked p : page_of (revoked p) = page_of p.
Proof. done. Qed.

Lemma fmap_alter_revoked {B} (f : ProposedIndexPage → B)
    (log : list proposal) (k : nat) :
  (λ p, f (page_of p)) <$> alter revoked k log = (λ p, f (page_of p)) <$> log.
Proof.
  revert k. induction log as [|a log IH]; intros [|k]; simpl; try done.
  f_equal. apply IH.
Qed.

Section index_pages.
Context {Router : Type}.
Variable url_for : string → result string.

#[local] Abbreviation globals := (@globals Router).
#[local] Abbreviation M := (@M Router).
Lemma pages_inv_initial (g : globals) :
  proposed_index_pages g = [] → pages_inv g [] [].
Proof.
  intros Hg. unfold pages_inv. rewrite Hg. split_and!; done.
Qed.

Lemma propose_index_page_inv (g : globals) disposers log route priority :
  pages_inv g disposers log →
  ∃ g', propose_index_page route priority g =
          (Ok (disposer {| priority := - priority; route := route |}), g') ∧
    pages_inv g' (disposers ++ [disposer {| priority := - priority; route := route |}])
      (log ++ [{| prop_route := route; prop_priority := priority;
                  prop_live := true |}]) ∧
    same_rest g g'.
Proof.
  intros (Hheap & Hperm & Hds). unfold propose_index_page.
  destruct (heappush_spec page_lt page_lt_asym page_lt_negtrans
              (proposed_index_pages g) {| priority := - priority; route := route |} Hheap)
    as (h & -> & Hh & Hp).
  eexists. split; [done|]. split; [|done].
  split_and!; simpl.
  - done.
  - rewrite live_snoc by done. rewrite fmap_app. simpl.
    rewrite Hp, Hperm. unfold page_of at 3. simpl.
    by rewrite Permutation_cons_append.
  - rewrite fmap_app. simpl. by rewrite Hds.
Qed.

Lemma disposer_live_inv (g : globals) disposers log k p :
  pages_inv g disposers log → log !! k = Some p → prop_live p = true →
  ∃ g', disposer (page_of p) g = (Ok (), g') ∧
    pages_inv g' disposers (alter revoked k log) ∧ same_rest g g'.
Proof.
  intros (Hheap & Hperm & Hds) Hk Hp. unfold disposer.
  pose proof (live_alter_revoked log k p Hk Hp) as Hlive.
  destruct (disposer_body_spec (page_of p) (proposed_index_pages g))
    as (pages' & -> & Hh & Hpp).
  { rewrite Hperm, Hlive. rewrite fmap_cons. apply elem_of_cons. by left. }
  eexists. split; [done|]. split; [|done].
  split_and!; simpl.
  - done.
  - apply (Permutation_cons_inv (a := page_of p)).
    rewrite <- Hpp, Hperm, Hlive. by rewrite fmap_cons.
  - by rewrite fmap_alter_revoked.
Qed.

Lemma disposer_dead (g : globals) disposers log p :
  pages_inv g disposers log →
  (∀ q, q ∈ live log → page_of q ≠ page_of p) →
  disposer (page_of p) g = (Raise ValueError, g).
Proof.
  intros (Hheap & Hperm & Hds) Hne. unfold disposer.
  rewrite disposer_body_missing; [done|].
  rewrite Hperm. intros (q & Hq & Hin)%list_elem_of_fmap. by apply (Hne q).
Qed.

Lemma alter_revoked_dead (log : list proposal) (k : nat) p :
  log !! k = Some p → prop_live p = false → alter revoked k log = log.
Proof.
  intros Hk Hp. apply list_eq. intros i.
  destruct (decide (i = k)) as [->|Hik].
  - rewrite list_lookup_alter_eq, Hk. simpl. f_equal.
    destruct p. simpl in Hp. by subst.
  - by rewrite list_lookup_alter_ne.
Qed.

Lemma run_calls_inv calls : ∀ (g : globals) disposers log,
  pages_inv g disposers log → sound_disposals calls log = true →
  ∃ disposers' g', run_calls calls disposers g = (Ok disposers', g') ∧
    pages_inv g' disposers' (history calls log) ∧ same_rest g g'.
Proof.
  induction calls as [|[route priority|k] calls IH];
    intros g disposers log Hinv Hsound.
  - exists disposers, g. done.
  - destruct (propose_index_page_inv g disposers log route priority Hinv)
      as (g1 & Hrun & Hinv1 & Hrest1).
    destruct (IH _ _ _ Hinv1 Hsound) as (ds' & g' & Hrun' & Hinv' & Hrest').
    exists ds', g'. split; [|split; [done|]].
    + cbn [run_calls]. unfold mbind, M_bind. by rewrite Hrun.
    + destruct Hrest1 as (?&?&?), Hrest' as (?&?&?). split_and!; congruence.
  - simpl in Hsound. destruct (log !! k) as [p|] eqn:Hk; [|done].
    apply andb_prop in Hsound as [Hp Hsound].
    assert (disposers !! k = Some (disposer (page_of p))) as Hd.
    { destruct Hinv as (_ & _ & ->). by rewrite list_lookup_fmap, Hk. }
    cbn [run_calls]. rewrite Hd. unfold mbind, M_bind, attempt.
    destruct (prop_live p) eqn:Hlive.
    + destruct (disposer_live_inv g disposers log k p Hinv Hk Hlive)
        as (g1 & Hrun & Hinv1 & Hrest1).
      destruct (IH _ _ _ Hinv1 Hsound) as (ds' & g' & Hrun' & Hinv' & Hrest').
      exists ds', g'. rewrite Hrun. split; [done|]. split; [done|].
      destruct Hrest1 as (?&?&?), Hrest' as (?&?&?). split_and!; congruence.
    + simpl in Hp. apply bool_decide_eq_true in Hp.
      rewrite (disposer_dead g disposers log p Hinv).
      2:{ intros q Hq Heq. apply Hp. rewrite <- Heq.
          by apply list_elem_of_fmap_2. }
      simpl. rewrite (alter_revoked_dead log k p Hk Hlive) in Hsound |- *.
      apply (IH g disposers log Hinv Hsound).
Qed.

(** The page at the front of the heap belongs to a live proposal that is
    first in the order of pages: highest priority first, then smallest
    route. *)
Lemma winner_spec (g : globals) disposers log :
  pages_inv g disposers log →
  (live log = [] → get_index_url url_for g = (Ok None, g)) ∧
  (live log ≠ [] →
   ∃ w, w ∈ live log ∧
     get_index_url url_for g = (Some <$> url_for (prop_route w), g) ∧
     ∀ q, q ∈ live log →
       (prop_priority q ≤ prop_priority w)%Z ∧
       (prop_priority q = prop_priority w →
        str_le (prop_route w) (prop_route q))).
Proof.
  intros (Hheap & Hperm & Hds). unfold get_index_url. split.
  - intros Hlive. rewrite Hlive in Hperm. simpl in Hperm.
    apply Permutation_nil_r in Hperm. by rewrite Hperm.
  - intros Hlive. destruct (proposed_index_pages g) as [|m pages] eqn:Hpages.
    { symmetry in Hperm. apply Permutation_nil_r, fmap_nil_inv in Hperm. done. }
    assert (m ∈ page_of <$> live log) as (w & -> & Hw)%list_elem_of_fmap.
    { rewrite <- Hperm. apply elem_of_cons. by left. }
    exists w. split; [done|]. split; [done|].
    intros q Hq.
    assert (le page_lt (page_of w) (page_of q)) as Hle.
    { apply (heap_min page_lt page_lt_asym page_lt_negtrans
               (page_of w :: pages)); [done|done|].
      rewrite Hperm. by apply list_elem_of_fmap_2. }
    unfold le, page_lt, page_of in Hle. simpl in Hle.
    repeat case_decide; try lia.
    + split; [lia|]. intros _. unfold str_le.
      replace (prop_route q) with (prop_route w) by done.
      destruct (str_lt (prop_route w) (prop_route w)) eqn:E; [|done].
      pose proof (str_lt_asym _ _ E). congruence.
    + split; [lia|]. intros _. done.
Qed.
End index_pages.

(** ** Claims about the index page heap *)

Lemma run_calls_pages_inv {Router} (g0 g : @globals Router) calls disposers :
  proposed_index_pages g0 = [] → sound_disposals calls [] = true →
  run_calls calls [] g0 = (Ok disposers, g) →
  pages_inv g disposers (history calls []).
Proof.
  intros Hg0 Honce Hrun.
  destruct (run_calls_inv calls g0 [] [] (pages_inv_initial g0 Hg0) Honce)
    as (ds' & g' & Hrun' & Hinv & _).
  rewrite Hrun in Hrun'. by simplify_eq.
Qed.

(** C1, amended: for every sequence of [propose_index_page] and disposer
    calls in which no disposer is called again while a live proposal has
    the same priority and route as its own, started with an empty list of
    proposals, [get_index_url] gives afterwards the URL of the route of a
    live proposal whose priority is maximal among the live proposals, or
    [None] when no proposal is live. *)
Theorem winner_has_max_priority {Router} (url_for : string → result string)
    (g0 : @globals Router) (calls : list call) :
  proposed_index_pages g0 = [] →
  sound_disposals calls [] = true →
  ∃ disposers g,
    run_calls calls [] g0 = (Ok disposers, g) ∧
    (live (history calls []) = [] →
     get_index_url url_for g = (Ok None, g)) ∧
    (live (history calls []) ≠ [] →
     ∃ w, w ∈ live (history calls []) ∧
       get_index_url url_for g = (Some <$> url_for (prop_route w), g) ∧
       ∀ q, q ∈ live (history calls []) →
         (prop_priority q ≤ prop_priority w)%Z).
Proof.
  intros Hg0 Honce.
  destruct (run_calls_inv calls g0 [] [] (pages_inv_initial g0 Hg0) Honce)
    as (ds & g & Hrun & Hinv & _).
  exists ds, g. split; [done|].
  destruct (winner_spec url_for g ds _ Hinv) as [Hnone Hsome].
  split; [done|]. intros Hlive.
  destruct (Hsome Hlive) as (w & Hw & Hurl & Hmax).
  exists w. split; [done|]. split; [done|].
  intros q Hq. by apply Hmax.
Qed.

Lemma winner_has_max_priority_witness :
  proposed_index_pages (@initial unit) = [] ∧
  sound_disposals revoke_twice_calls [] = true ∧
  ∃ disposers g,
    run_calls revoke_twice_calls [] (@initial unit) = (Ok disposers, g) ∧
    (live (history revoke_twice_calls []) = [] →
     get_index_url path_url_for g = (Ok None, g)) ∧
    (live (history revoke_twice_calls []) ≠ [] →
     ∃ w, w ∈ live (history revoke_twice_calls []) ∧
       get_index_url path_url_for g = (Some <$> path_url_for (prop_route w), g) ∧
       ∀ q, q ∈ live (history revoke_twice_calls []) →
         (prop_priority q ≤ prop_priority w)%Z).
Proof.
  split; [reflexivity|]. split; [reflexivity|].
  apply (winner_has_max_priority path_url_for (@initial unit)
           revoke_twice_calls); reflexivity.
Defined.

(** C1 as stated fails when a disposer is called twice: the second call
    finds the equal page of another proposal and removes it.  That
    proposal is still live, yet [get_index_url] gives [None]. *)
Lemma double_dispose_drops_live_proposal :
  ∃ disposers g,
    run_calls double_dispose_calls [] (@initial unit) = (Ok disposers, g) ∧
    live (history double_dispose_calls []) =
      [{| prop_route := "a"; prop_priority := 0; prop_live := true |}] ∧
    get_index_url path_url_for g = (Ok None, g).
Proof.
  eexists _, _. split; [vm_compute; reflexivity|].
  split; reflexivity.
Qed.

(** C4, amended: after calls of [propose_index_page] and of disposers,
    none called again while a live proposal has the same priority and
    route as its own, when several live proposals share the maximal
    priority, the current winner is the one among them whose route is
    smallest in the order of strings, whatever the order of the calls; the
    order of [ProposedIndexPage] compares the priority and then the
    route. *)
Theorem winner_tie_break {Router} (url_for : string → result string)
    (g0 : @globals Router) (calls : list call) :
  proposed_index_pages g0 = [] →
  sound_disposals calls [] = true →
  live (history calls []) ≠ [] →
  ∃ disposers g w,
    run_calls calls [] g0 = (Ok disposers, g) ∧
    w ∈ live (history calls []) ∧
    get_index_url url_for g = (Some <$> url_for (prop_route w), g) ∧
    ∀ q, q ∈ live (history calls []) →
      (prop_priority q ≤ prop_priority w)%Z ∧
      (prop_priority q = prop_priority w →
       str_le (prop_route w) (prop_route q)).
Proof.
  intros Hg0 Honce Hlive.
  destruct (run_calls_inv calls g0 [] [] (pages_inv_initial g0 Hg0) Honce)
    as (ds & g & Hrun & Hinv & _).
  destruct (winner_spec url_for g ds _ Hinv) as [_ Hsome].
  destruct (Hsome Hlive) as (w & Hw & Hurl & Hmax).
  by exists ds, g, w.
Qed.

Lemma winner_tie_break_witness :
  proposed_index_pages (@initial unit) = [] ∧
  sound_disposals tie_calls [] = true ∧
  live (history tie_calls []) ≠ [] ∧
  ∃ disposers g w,
    run_calls tie_calls [] (@initial unit) = (Ok disposers, g) ∧
    w ∈ live (history tie_calls []) ∧
    get_index_url path_url_for g = (Some <$> path_url_for (prop_route w), g) ∧
    ∀ q, q ∈ live (history tie_calls []) →
      (prop_priority q ≤ prop_priority w)%Z ∧
      (prop_priority q = prop_priority w →
       str_le (prop_route w) (prop_route q)).
Proof.
  split; [reflexivity|]. split; [reflexivity|]. split; [discriminate|].
  apply (winner_tie_break path_url_for (@initial unit) tie_calls);
    [reflexivity|reflexivity|discriminate].
Defined.

(** C4 as stated fails: of two live proposals of priority 0, the one made
    last has the route [b], and the winner is the one with the route [a],
    made first. *)
Lemma tie_won_by_first_inserted :
  ∃ disposers g,
    run_calls tie_calls [] (@initial unit) = (Ok disposers, g) ∧
    live (history tie_calls []) =
      [{| prop_route := "a"; prop_priority := 0; prop_live := true |};
       {| prop_route := "b"; prop_priority := 0; prop_live := true |}] ∧
    get_index_url path_url_for g = (Ok (Some "/a"), g).
Proof.
  eexists _, _. split; [vm_compute; reflexivity|].
  split; reflexivity.
Qed.

(** C2, amended: in a state reached by calls of [propose_index_page] and
    of disposers, none called again while a live proposal has the same
    priority and route as its own, calling the disposer of any live
    proposal, be it the current winner, the one inserted last or the only
    one, returns; it leaves a heap that holds exactly the pages of the
    remaining live proposals, with a remaining proposal of maximal
    priority as the winner, and no winner when none remains. *)
Theorem revoke_edge_cases {Router} (url_for : string → result string)
    (g0 g : @globals Router) (calls : list call) disposers (k : nat) p :
  proposed_index_pages g0 = [] →
  sound_disposals calls [] = true →
  run_calls calls [] g0 = (Ok disposers, g) →
  history calls [] !! k = Some p →
  prop_live p = true →
  ∃ d g',
    disposers !! k = Some d ∧ d g = (Ok (), g') ∧
    live (history calls []) ≡ₚ p :: live (alter revoked k (history calls [])) ∧
    is_heap page_lt (proposed_index_pages g') ∧
    proposed_index_pages g' ≡ₚ
      page_of <$> live (alter revoked k (history calls [])) ∧
    (live (alter revoked k (history calls [])) = [] →
     get_index_url url_for g' = (Ok None, g')) ∧
    (live (alter revoked k (history calls [])) ≠ [] →
     ∃ w, w ∈ live (alter revoked k (history calls [])) ∧
       get_index_url url_for g' = (Some <$> url_for (prop_route w), g') ∧
       ∀ q, q ∈ live (alter revoked k (history calls [])) →
         (prop_priority q ≤ prop_priority w)%Z).
Proof.
  intros Hg0 Honce Hrun Hk Hp.
  pose proof (run_calls_pages_inv g0 g calls disposers Hg0 Honce Hrun) as Hinv.
  destruct (disposer_live_inv g disposers _ k p Hinv Hk Hp)
    as (g' & Hd & Hinv' & _).
  exists (disposer (page_of p)), g'.
  split. { destruct Hinv as (_ & _ & ->). by rewrite list_lookup_fmap, Hk. }
  split; [done|].
  split; [by apply live_alter_revoked|].
  destruct (winner_spec url_for g' disposers _ Hinv') as [Hnone Hsome].
  destruct Hinv' as (Hheap & Hperm & _).
  split; [done|]. split; [done|]. split; [done|].
  intros Hlive. destruct (Hsome Hlive) as (w & Hw & Hurl & Hmax).
  exists w. split; [done|]. split; [done|].
  intros q Hq. by apply Hmax.
Qed.

Lemma revoke_edge_cases_witness :
  ∃ disposers g,
    (proposed_index_pages (@initial unit) = [] ∧
     sound_disposals debug_docs_calls [] = true ∧
     run_calls debug_docs_calls [] (@initial unit) = (Ok disposers, g) ∧
     history debug_docs_calls [] !! 0 =
       Some {| prop_route := "debug.index"; prop_priority := 5;
               prop_live := true |}) ∧
    ∃ d g',
      disposers !! 0 = Some d ∧ d g = (Ok (), g') ∧
      live (history debug_docs_calls []) ≡ₚ
        {| prop_route := "debug.index"; prop_priority := 5;
           prop_live := true |}
        :: live (alter revoked 0 (history debug_docs_calls [])) ∧
      is_heap page_lt (proposed_index_pages g') ∧
      proposed_index_pages g' ≡ₚ
        page_of <$> live (alter revoked 0 (history debug_docs_calls [])) ∧
      (live (alter revoked 0 (history debug_docs_calls [])) = [] →
       get_index_url path_url_for g' = (Ok None, g')) ∧
      (live (alter revoked 0 (history debug_docs_calls [])) ≠ [] →
       ∃ w, w ∈ live (alter revoked 0 (history debug_docs_calls [])) ∧
         get_index_url path_url_for g' =
           (Some <$> path_url_for (prop_route w), g') ∧
         ∀ q, q ∈ live (alter revoked 0 (history debug_docs_calls [])) →
           (prop_priority q ≤ prop_priority w)%Z).
Proof.
  eexists _, _. split.
  { split; [reflexivity|]. split; [reflexivity|].
    split; [vm_compute; reflexivity|reflexivity]. }
  apply (revoke_edge_cases path_url_for (@initial unit) _ debug_docs_calls _ 0
           {| prop_route := "debug.index"; prop_priority := 5;
              prop_live := true |});
    [reflexivity|reflexivity|vm_compute; reflexivity|reflexivity|reflexivity].
Defined.

(** C2 as stated fails after a disposer was called twice.  The second
    call removed the equal page of a proposal that is still live; when the
    current winner is then revoked, no winner is left although that
    proposal is live, and when that proposal is the only live one, its
    own disposer raises [ValueError]. *)
Lemma revoke_after_double_dispose :
  (∃ disposers g d g',
     run_calls stale_winner_calls [] (@initial unit) = (Ok disposers, g) ∧
     live (history stale_winner_calls []) =
       [{| prop_route := "a"; prop_priority := 7; prop_live := true |};
        {| prop_route := "c"; prop_priority := 1; prop_live := true |}] ∧
     get_index_url path_url_for g = (Ok (Some "/c"), g) ∧
     disposers !! 2 = Some d ∧ d g = (Ok (), g') ∧
     live (alter revoked 2 (history stale_winner_calls [])) =
       [{| prop_route := "a"; prop_priority := 7; prop_live := true |}] ∧
     get_index_url path_url_for g' = (Ok None, g')) ∧
  (∃ disposers g d,
     run_calls double_dispose_calls [] (@initial unit) = (Ok disposers, g) ∧
     live (history double_dispose_calls []) =
       [{| prop_route := "a"; prop_priority := 0; prop_live := true |}] ∧
     disposers !! 1 = Some d ∧ d g = (Raise ValueError, g)).
Proof.
  split.
  - eexists _, _, _, _. split; [vm_compute; reflexivity|].
    split; [reflexivity|]. split; [reflexivity|]. split; [reflexivity|].
    split; [vm_compute; reflexivity|]. split; reflexivity.
  - eexists _, _, _. split; [vm_compute; reflexivity|].
    split; [reflexivity|]. split; reflexivity.
Qed.

(** C9: once the disposer of a proposal has removed it, a second call of
    that disposer, made while no live proposal has the same priority and
    route, raises [ValueError] and changes nothing: [list.index] raises for
    a value that is not in the list, and what it returns otherwise is never
    negative, so the guard [index >= 0] always holds. *)
Theorem second_dispose_raises {Router} (g0 g : @globals Router)
    (calls : list call) disposers (k : nat) p :
  proposed_index_pages g0 = [] →
  sound_disposals calls [] = true →
  run_calls calls [] g0 = (Ok disposers, g) →
  history calls [] !! k = Some p →
  prop_live p = false →
  (∀ q, q ∈ live (history calls []) → page_of q ≠ page_of p) →
  (∃ d, disposers !! k = Some d ∧ d g = (Raise ValueError, g)) ∧
  (∀ pages i, list_index pages (page_of p) = Ok i →
     bool_decide (0 ≤ Z.of_nat i)%Z = true).
Proof.
  intros Hg0 Honce Hrun Hk Hp Hne.
  pose proof (run_calls_pages_inv g0 g calls disposers Hg0 Honce Hrun) as Hinv.
  split.
  - exists (disposer (page_of p)). split.
    + destruct Hinv as (_ & _ & ->). by rewrite list_lookup_fmap, Hk.
    + by apply (disposer_dead g disposers (history calls [])).
  - intros pages i _. apply bool_decide_eq_true. lia.
Qed.

Lemma second_dispose_raises_witness :
  ∃ disposers g,
    (proposed_index_pages (@initial unit) = [] ∧
     sound_disposals (debug_docs_calls ++ [Dispose 0]) [] = true ∧
     run_calls (debug_docs_calls ++ [Dispose 0]) [] (@initial unit) =
       (Ok disposers, g) ∧
     history (debug_docs_calls ++ [Dispose 0]) [] !! 0 =
       Some {| prop_route := "debug.index"; prop_priority := 5;
               prop_live := false |}) ∧
    (∃ d, disposers !! 0 = Some d ∧ d g = (Raise ValueError, g)) ∧
    (∀ pages i,
       list_index pages
         (page_of {| prop_route := "debug.index"; prop_priority := 5;
                     prop_live := false |}) = Ok i →
       bool_decide (0 ≤ Z.of_nat i)%Z = true).
Proof.
  eexists _, _. split.
  { split; [reflexivity|]. split; [reflexivity|].
    split; [vm_compute; reflexivity|reflexivity]. }
  apply (second_dispose_raises (@initial unit) _
           (debug_docs_calls ++ [Dispose 0]) _ 0
           {| prop_route := "debug.index"; prop_priority := 5;
              prop_live := false |});
    [reflexivity|reflexivity|vm_compute; reflexivity|reflexivity|reflexivity|].
  intros q Hq. apply list_elem_of_singleton in Hq. rewrite Hq. discriminate.
Defined.

(** ** The serve loop *)

Section serve_loop.
Context {Router : Type}.
Variable g : @globals Router.
Variable config : HyperConfig.
Variable starting : string.

(** What one iteration does when [serve] raises an [Exception]. *)
Lemma serve_loop_crash t r e env now retries :
  is_Exception e = true →
  serve_loop g config starting (crash t r e :: env) now retries =
    let served :=
      [(now, Info starting); (now, Serve (asgi_app (exports g)) config);
       (t, ServeExit (Some e))] in
    let retries := if (5 <=? t - now)%float then 0 else retries in
    if decide (retries < 3) then
      let next := serve_loop g config starting env r (retries + 1) in
      (next.1,
       served ++ [(t, Error "Server stopped unexpectedly, retrying...");
                  (t, Sleep 1)] ++ next.2)
    else (Raise e, served).
Proof.
  intros He. cbn [serve_loop crash stopped_at resumed_at raised]. rewrite He.
  unfold max_retries. cbn zeta. case_decide; [|done].
  by destruct (serve_loop _ _ _ _ _ _).
Qed.

Lemma serve_loop_returned t r env now retries :
  serve_loop g config starting
    ({| stopped_at := t; raised := None; resumed_at := r |} :: env)
    now retries =
  (Ok (), [(now, Info starting); (now, Serve (asgi_app (exports g)) config);
           (t, ServeExit None)]).
Proof. done. Qed.

(** When the handler finds, at every failure, that the server ran for 5
    time units or more, no failure is fatal. *)
Lemma long_runs_never_fatal env : ∀ now retries,
  Forall (λ c, ∀ e, raised c.2 = Some e →
            is_Exception e = true ∧ (5 <=? uptime c)%float = true)
    (started now env) →
  ∀ e, (serve_loop g config starting env now retries).1 ≠ Raise e.
Proof.
  induction env as [|[t [e'|] r] env IH]; intros now retries Hall e; [done| |done].
  cbn [started resumed_at] in Hall. apply Forall_cons in Hall as [Ho Hall].
  destruct (Ho e' eq_refl) as [He' Hd]. unfold uptime in Hd. cbn in Hd.
  change {| stopped_at := t; raised := Some e'; resumed_at := r |}
    with (crash t r e').
  rewrite serve_loop_crash by done. cbn zeta.
  rewrite Hd. rewrite decide_True by lia. cbn [fst]. by apply IH.
Qed.

Lemma failure_times_crash now t e (tr : trace) :
  failure_times
    ([(now, Info starting); (now, Serve (asgi_app (exports g)) config);
      (t, ServeExit (Some e))] ++
     [(t, Error "Server stopped unexpectedly, retrying...");
      (t, Sleep 1)] ++ tr) =
  t :: failure_times tr.
Proof. done. Qed.

(** Four failures in a row, of which the handler finds the second, the
    third and the fourth to come less than 5 time units after the server
    started: the fourth is fatal. *)
Lemma close_failures_fatal t1 r1 t2 r2 t3 r3 t4 r4 e1 e2 e3 e4 rest now :
  is_Exception e1 = true → is_Exception e2 = true →
  is_Exception e3 = true → is_Exception e4 = true →
  (5 <=? t2 - r1)%float = false →
  (5 <=? t3 - r2)%float = false →
  (5 <=? t4 - r3)%float = false →
  serve_loop g config starting
    (crash t1 r1 e1 :: crash t2 r2 e2 :: crash t3 r3 e3 :: crash t4 r4 e4 :: rest)
    now 0 =
  (Raise e4,
   [(now, Info starting); (now, Serve (asgi_app (exports g)) config);
    (t1, ServeExit (Some e1));
    (t1, Error "Server stopped unexpectedly, retrying..."); (t1, Sleep 1);
    (r1, Info starting); (r1, Serve (asgi_app (exports g)) config);
    (t2, ServeExit (Some e2));
    (t2, Error "Server stopped unexpectedly, retrying..."); (t2, Sleep 1);
    (r2, Info starting); (r2, Serve (asgi_app (exports g)) config);
    (t3, ServeExit (Some e3));
    (t3, Error "Server stopped unexpectedly, retrying..."); (t3, Sleep 1);
    (r3, Info starting); (r3, Serve (asgi_app (exports g)) config);
    (t4, ServeExit (Some e4))]).
Proof.
  intros H1 H2 H3 H4 Hs2 Hs3 Hs4.
  rewrite (serve_loop_crash t1) by done. cbn zeta.
  assert ((if (5 <=? t1 - now)%float then 0 else 0) = 0) as ->
    by (by destruct (5 <=? t1 - now)%float).
  rewrite decide_True by lia.
  rewrite (serve_loop_crash t2) by done. cbn zeta. rewrite Hs2.
  rewrite decide_True by lia.
  rewrite (serve_loop_crash t3) by done. cbn zeta. rewrite Hs3.
  rewrite decide_True by lia.
  rewrite (serve_loop_crash t4) by done. cbn zeta. rewrite Hs4.
  by rewrite decide_False by lia.
Qed.
End serve_loop.

(** ** The request router *)

Lemma filter_eq_app_cons {A} (P : A → Prop) `{∀ x, Decision (P x)}
    (l l1 l2 : list A) x :
  filter P l = l1 ++ x :: l2 →
  ∃ m1 m2, l = m1 ++ x :: m2 ∧ filter P m1 = l1 ∧ filter P m2 = l2.
Proof.
  revert l1. induction l as [|a l IH]; intros l1 Hf.
  { by destruct l1. }
  destruct (decide (P a)) as [Ha|Ha].
  - rewrite filter_cons_True in Hf by done.
    destruct l1 as [|b l1]; simplify_eq/=.
    + exists [], l. by rewrite filter_nil.
    + destruct (IH l1 H1) as (m1 & m2 & -> & Hm1 & Hm2).
      exists (b :: m1), m2. rewrite filter_cons_True by done.
      by rewrite Hm1.
  - rewrite filter_cons_False in Hf by done.
    destruct (IH l1 Hf) as (m1 & m2 & -> & Hm1 & Hm2).
    exists (a :: m1), m2. by rewrite filter_cons_False.
Qed.

Lemma select_spec candidates : ∀ best l1 l2,
  (∀ e, e ∈ l1 → Routing.preferred best e = true) →
  (∀ e, e ∈ l2 → Routing.preferred e best = false) →
  ∃ l1' l2',
    l1 ++ best :: l2 ++ candidates =
      l1' ++ Routing.select best candidates :: l2' ∧
    (∀ e, e ∈ l1' → Routing.preferred (Routing.select best candidates) e = true) ∧
    (∀ e, e ∈ l2' → Routing.preferred e (Routing.select best candidates) = false).
Proof.
  induction candidates as [|c candidates IH]; intros best l1 l2 H1 H2.
  { exists l1, l2. by rewrite app_nil_r. }
  simpl. destruct (Routing.preferred c best) eqn:Hc.
  - destruct (IH c (l1 ++ best :: l2) []) as (l1' & l2' & Heq & H1' & H2').
    + intros e He. apply elem_of_app in He as [He|He].
      * specialize (H1 e He). revert H1 Hc. unfold Routing.preferred.
        rewrite !orb_true_iff, !andb_true_iff, !bool_decide_eq_true. lia.
      * apply elem_of_cons in He as [->|He]; [done|].
        specialize (H2 e He). revert H2 Hc. unfold Routing.preferred.
        rewrite orb_false_iff, andb_false_iff, !bool_decide_eq_false.
        rewrite !orb_true_iff, !andb_true_iff, !bool_decide_eq_true. lia.
    + by intros e ?%elem_of_nil.
    + exists l1', l2'. split; [|done]. rewrite <- Heq.
      by rewrite <- !app_assoc.
  - destruct (IH best l1 (l2 ++ [c])) as (l1' & l2' & Heq & H1' & H2').
    + done.
    + intros e He. apply elem_of_app in He as [He|He]; [by apply H2|].
      by apply list_elem_of_singleton in He as ->.
    + exists l1', l2'. split; [|done]. rewrite <- Heq.
      by rewrite <- !app_assoc.
Qed.

(** C7: the router answers with an eligible entry of the table; every
    eligible entry registered before it has a shorter prefix, or a prefix
    as long and a lower priority, and no eligible entry registered after it
    has a longer prefix, or a prefix as long and a higher priority.  It
    answers with no entry only when none is eligible.  With mounts at [/a]
    and [/a/b] of priority 0, [/a/b/c] is routed to the mount at [/a/b]. *)
Theorem route_longest_prefix :
  (∀ t scopeKind path r,
     Routing.route t scopeKind path = Some r →
     Routing.eligible scopeKind path r = true ∧
     ∃ before after,
       Routing.entries t = before ++ r :: after ∧
       (∀ e, e ∈ before → Routing.eligible scopeKind path e = true →
          String.length (Routing.pathPrefix e) < String.length (Routing.pathPrefix r) ∨
          String.length (Routing.pathPrefix e) = String.length (Routing.pathPrefix r) ∧
          (Routing.priority e < Routing.priority r)%Z) ∧
       (∀ e, e ∈ after → Routing.eligible scopeKind path e = true →
          String.length (Routing.pathPrefix e) < String.length (Routing.pathPrefix r) ∨
          String.length (Routing.pathPrefix e) = String.length (Routing.pathPrefix r) ∧
          (Routing.priority e ≤ Routing.priority r)%Z)) ∧
  (∀ t scopeKind path,
     Routing.route t scopeKind path = None →
     ∀ e, e ∈ Routing.entries t → Routing.eligible scopeKind path e = false) ∧
  (∀ A B scopeKind,
     ∃ t r, mounts_a_ab A B = Ok t ∧
       Routing.route t scopeKind "/a/b/c" = Some r ∧
       Routing.application r = B ∧ Routing.pathPrefix r = "/a/b").
Proof.
  split; [|split].
  - intros t scopeKind path r. unfold Routing.route.
    destruct (filter _ (Routing.entries t)) as [|b candidates] eqn:Hf; [done|].
    intros [= <-].
    destruct (select_spec candidates b [] []) as (l1 & l2 & Heq & H1 & H2);
      [by intros e ?%elem_of_nil|by intros e ?%elem_of_nil|].
    simpl in Heq. rewrite Heq in Hf.
    split.
    { assert (Routing.select b candidates ∈
                filter (λ e, Routing.eligible scopeKind path e = true)
                  (Routing.entries t)) as Hin.
      { rewrite Hf. apply elem_of_app. right. apply elem_of_cons. by left. }
      by apply list_elem_of_filter in Hin as [? _]. }
    apply filter_eq_app_cons in Hf as (m1 & m2 & Ht & Hm1 & Hm2).
    exists m1, m2. split; [done|]. split.
    + intros e He Hel.
      assert (e ∈ l1) as Hin by (rewrite <- Hm1; by apply list_elem_of_filter).
      specialize (H1 e Hin). revert H1. unfold Routing.preferred.
      rewrite !orb_true_iff, !andb_true_iff, !bool_decide_eq_true. lia.
    + intros e He Hel.
      assert (e ∈ l2) as Hin by (rewrite <- Hm2; by apply list_elem_of_filter).
      specialize (H2 e Hin). revert H2. unfold Routing.preferred.
      rewrite orb_false_iff, andb_false_iff, !bool_decide_eq_false. lia.
  - intros t scopeKind path. unfold Routing.route.
    destruct (filter _ (Routing.entries t)) as [|b candidates] eqn:Hf; [|done].
    intros _ e He. destruct (Routing.eligible scopeKind path e) eqn:Hel; [|done].
    assert (e ∈ filter (λ e, Routing.eligible scopeKind path e = true)
                  (Routing.entries t)) as Hin by (by apply list_elem_of_filter).
    rewrite Hf in Hin. by apply elem_of_nil in Hin.
  - intros A B scopeKind. eexists _, _. split; [reflexivity|].
    split; [reflexivity|done].
Qed.

(** ** Claims about the serve loop *)

Lemma run_with_address {Router} fsa debug configuration env now
    (g : @globals Router) host port :
  address (exports g) = Some (host, port) →
  ∃ config starting level,
    failure_times level = [] ∧
    run fsa debug configuration env now g =
      ((serve_loop g config starting env now 0).1,
       level ++ (serve_loop g config starting env now 0).2).
Proof.
  intros Ha. unfold run. rewrite Ha. cbn zeta.
  match goal with
  | |- context [serve_loop g ?c ?s env now 0] => exists c, s
  end.
  exists (if negb debug then [(now, SetLevel "WARNING")] else []).
  split; [by destruct debug|].
  by destruct (serve_loop _ _ _ _ _ _).
Qed.

Lemma failure_times_app (tr1 tr2 : trace) :
  failure_times (tr1 ++ tr2) = failure_times tr1 ++ failure_times tr2.
Proof. apply omap_app. Qed.

(** C3, amended: when [serve] raises an [Exception], the time the server
    ran is computed as the difference, in floats, of the reading of the
    clock and the reading taken before the call; the retry counter is
    first reset to 0 if this time is 5 or more; then, if the counter is
    below 3, the loop logs, sleeps 1 time unit, increments the counter and
    starts again with the clock read anew, and otherwise the exception is
    raised to the caller.  Consequently, when four calls fail in a row and
    the time computed for the second, the third and the fourth is below 5,
    the fourth failure is fatal; this is so for failures at 3, 5, 7 and 9,
    which are 2 time units apart.  And when the time computed for every
    failing call is 5 or more, no failure is fatal. *)
Theorem serve_retry_policy {Router} fsa debug configuration
    (g : @globals Router) host port :
  address (exports g) = Some (host, port) →
  (∀ config starting t r e env now retries,
     is_Exception e = true →
     serve_loop g config starting (crash t r e :: env) now retries =
       let served :=
         [(now, Info starting); (now, Serve (asgi_app (exports g)) config);
          (t, ServeExit (Some e))] in
       let retries := if (5 <=? t - now)%float then 0 else retries in
       if decide (retries < 3) then
         let next := serve_loop g config starting env r (retries + 1) in
         (next.1,
          served ++
          [(t, Error "Server stopped unexpectedly, retrying...");
           (t, Sleep 1)] ++ next.2)
       else (Raise e, served)) ∧
  (∀ t1 r1 t2 r2 t3 r3 t4 r4 e1 e2 e3 e4 rest now,
     is_Exception e1 = true → is_Exception e2 = true →
     is_Exception e3 = true → is_Exception e4 = true →
     (5 <=? t2 - r1)%float = false →
     (5 <=? t3 - r2)%float = false →
     (5 <=? t4 - r3)%float = false →
     (run fsa debug configuration
        (crash t1 r1 e1 :: crash t2 r2 e2 :: crash t3 r3 e3 :: crash t4 r4 e4 ::
         rest) now g).1 = Raise e4 ∧
     failure_times
       (run fsa debug configuration
          (crash t1 r1 e1 :: crash t2 r2 e2 :: crash t3 r3 e3 ::
           crash t4 r4 e4 :: rest) now g).2 = [t1; t2; t3; t4]) ∧
  (∀ e1 e2 e3 e4 rest,
     is_Exception e1 = true → is_Exception e2 = true →
     is_Exception e3 = true → is_Exception e4 = true →
     gaps (failure_times
             (run fsa debug configuration
                (crash 3 4 e1 :: crash 5 6 e2 :: crash 7 8 e3 ::
                 crash 9 10 e4 :: rest) 0 g).2) = [2; 2; 2]%Q ∧
     (run fsa debug configuration
        (crash 3 4 e1 :: crash 5 6 e2 :: crash 7 8 e3 :: crash 9 10 e4 :: rest)
        0 g).1 = Raise e4) ∧
  (∀ env now,
     Forall (λ c, ∀ e, raised c.2 = Some e →
               is_Exception e = true ∧ (5 <=? uptime c)%float = true)
       (started now env) →
     ∀ e, (run fsa debug configuration env now g).1 ≠ Raise e).
Proof.
  intros Ha.
  assert (∀ t1 r1 t2 r2 t3 r3 t4 r4 e1 e2 e3 e4 rest now,
     is_Exception e1 = true → is_Exception e2 = true →
     is_Exception e3 = true → is_Exception e4 = true →
     (5 <=? t2 - r1)%float = false →
     (5 <=? t3 - r2)%float = false →
     (5 <=? t4 - r3)%float = false →
     (run fsa debug configuration
        (crash t1 r1 e1 :: crash t2 r2 e2 :: crash t3 r3 e3 :: crash t4 r4 e4 ::
         rest) now g).1 = Raise e4 ∧
     failure_times
       (run fsa debug configuration
          (crash t1 r1 e1 :: crash t2 r2 e2 :: crash t3 r3 e3 ::
           crash t4 r4 e4 :: rest) now g).2 = [t1; t2; t3; t4]) as Hfour.
  { intros t1 r1 t2 r2 t3 r3 t4 r4 e1 e2 e3 e4 rest now H1 H2 H3 H4 Hs2 Hs3 Hs4.
    destruct (run_with_address fsa debug configuration
                (crash t1 r1 e1 :: crash t2 r2 e2 :: crash t3 r3 e3 ::
                 crash t4 r4 e4 :: rest) now g host port Ha)
      as (config & starting & level & Hlevel & ->).
    rewrite (close_failures_fatal g config starting t1 r1 t2 r2 t3 r3 t4 r4)
      by done.
    cbn [fst snd]. split; [done|]. by rewrite failure_times_app, Hlevel. }
  split; [|split; [|split]].
  - intros. by apply serve_loop_crash.
  - exact Hfour.
  - intros e1 e2 e3 e4 rest H1 H2 H3 H4.
    destruct (Hfour 3 4 5 6 7 8 9 10 e1 e2 e3 e4 rest 0 H1 H2 H3 H4
                eq_refl eq_refl eq_refl)%float as [-> ->].
    split; [|done]. vm_compute. reflexivity.
  - intros env now Hall e.
    destruct (run_with_address fsa debug configuration env now g host port Ha)
      as (config & starting & level & Hlevel & ->).
    cbn [fst]. by apply long_runs_never_fatal.
Qed.

Lemma serve_retry_policy_witness :
  address (exports loaded) = Some (VStr "localhost", VInt 5000) ∧
  (run plain_socket_address false ∅ close_failures 0 loaded).1 =
    Raise network_down ∧
  (∀ e, (run plain_socket_address false ∅ spaced_failures 0 loaded).1 ≠ Raise e).
Proof.
  split; [reflexivity|].
  destruct (serve_retry_policy plain_socket_address false ∅ loaded
              (VStr "localhost") (VInt 5000) eq_refl)
    as (_ & Hclose & _ & Hlong).
  split.
  - exact (proj1 (Hclose 3 4 5 6 7 8 9 10 network_down network_down
                    network_down network_down [] 0
                    eq_refl eq_refl eq_refl eq_refl eq_refl eq_refl eq_refl)%float).
  - apply Hlong. unfold spaced_failures. cbn [started crash resumed_at].
    repeat (apply Forall_cons; split;
            [intros e [= <-]; split; reflexivity|]).
    apply Forall_nil. exact I.
Defined.

(** C3 as stated fails for gaps of 5 time units: the server ran for 4 time
    units before each failure, the counter is never reset, and the fourth
    failure is fatal. *)
Lemma gaps_of_5_fatal :
  gaps (failure_times
          (run plain_socket_address false ∅ gap5_failures 0 loaded).2) =
    [5; 5; 5]%Q ∧
  Forall (λ gap, (5 <= gap)%Q)
    (gaps (failure_times
             (run plain_socket_address false ∅ gap5_failures 0 loaded).2)) ∧
  (run plain_socket_address false ∅ gap5_failures 0 loaded).1 =
    Raise network_down.
Proof.
  split; [vm_compute; reflexivity|]. split; [|vm_compute; reflexivity].
  vm_compute. repeat constructor; discriminate.
Qed.

(** The time the server ran is compared with 5 after it is rounded.  On a
    clock that adds up runs of 0.9, 0.9, 0.9 and 5.0 time units and the
    back-off in floats, the last run is from 5.7 to 10.7, which is less
    than 5 in floats: the counter is not reset and the fourth failure is
    fatal.  And a run from the float after 1 to 6 lasts less than 5 time
    units, but the difference is rounded to 5 and the counter is reset. *)
Lemma rounded_uptimes :
  (0x1.5666666666666p+3 - 0x1.6cccccccccccdp+2 =
     0x1.3ffffffffffffp+2)%float ∧
  (run plain_socket_address false ∅ rounded_failures 0 loaded).1 =
    Raise network_down ∧
  (Q_of_float 6 - Q_of_float 0x1.0000000000001p+0 < 5)%Q ∧
  (6 - 0x1.0000000000001p+0 = 5)%float ∧
  ∀ retries env,
    serve_loop loaded {| bind := []; certfile := None; keyfile := None;
                         use_reloader := false |} ""
      (crash 6 7 network_down :: env) 0x1.0000000000001p+0 retries =
    serve_loop loaded {| bind := []; certfile := None; keyfile := None;
                         use_reloader := false |} ""
      (crash 6 7 network_down :: env) 0x1.0000000000001p+0 0.
Proof.
  split; [reflexivity|]. split; [vm_compute; reflexivity|].
  split; [vm_compute; reflexivity|]. split; [reflexivity|].
  intros retries env. by rewrite !serve_loop_crash.
Qed.

(** C10: when the exported address is [None], [run] logs one warning and
    returns; it does not call [serve] and does not sleep. *)
Theorem run_without_address {Router} fsa debug configuration env now
    (g : @globals Router) :
  address (exports g) = None →
  run fsa debug configuration env now g =
    (Ok (), [(now, Warn "HTTP server address is not specified in configuration")]).
Proof. intros Ha. unfold run. by rewrite Ha. Qed.

Lemma run_without_address_witness :
  run plain_socket_address false ∅ close_failures 0 (@initial Routing.MountTable) =
    (Ok (), [(0%float, Warn "HTTP server address is not specified in configuration")]) ∧
  run plain_socket_address false ∅ close_failures 0 (unload loaded).2 =
    (Ok (), [(0%float, Warn "HTTP server address is not specified in configuration")]).
Proof.
  split.
  - apply (run_without_address plain_socket_address false ∅ close_failures 0
             (@initial Routing.MountTable)). reflexivity.
  - apply (run_without_address plain_socket_address false ∅ close_failures 0
             (unload loaded).2). reflexivity.
Defined.

(** ** Claims about the index route, the scoped helpers and the loader *)

(** C5: when [get_index_url] gives the URL of the current winner, the
    handler of the root path answers with a redirect to that URL, followed
    by [?] and the decoded query string when the query string of the
    request is not empty; when [get_index_url] gives [None], the handler
    aborts with the status 404.  The URL is taken to be non-empty, as the
    URLs built by [url_for] are, and the query string to be UTF-8. *)
Theorem index_redirects_to_winner {Router} url_for decode_utf8
    (g : @globals Router) request :
  (∀ u, get_index_url url_for g = (Ok (Some u), g) → u ≠ "" →
     (query_string request = [] →
      index url_for decode_utf8 request g = (Ok (Redirect 302 u), g)) ∧
     (∀ q, query_string request ≠ [] →
        decode_utf8 (query_string request) = Ok q →
        index url_for decode_utf8 request g =
          (Ok (Redirect 302 (u +:+ "?" +:+ q)), g))) ∧
  (get_index_url url_for g = (Ok None, g) →
   index url_for decode_utf8 request g = (Raise (HTTPException 404), g)).
Proof.
  split.
  - intros u Hurl Hu.
    assert (String.eqb u "" = false) as Hne by (by apply String.eqb_neq).
    split.
    + intros Hq. unfold index, mbind, M_bind. rewrite Hurl, Hne, Hq. done.
    + intros q Hq Hdec. unfold index, mbind, M_bind.
      rewrite Hurl, Hne. simpl.
      destruct (query_string request); [done|]. by rewrite Hdec.
  - intros Hurl. unfold index, mbind, M_bind. by rewrite Hurl.
Qed.

Lemma index_redirects_to_winner_witness :
  index path_url_for decode_ascii
    {| query_string := list_byte_of_string "lang=en" |} with_proposals =
    (Ok (Redirect 302 "/debug.index?lang=en"), with_proposals) ∧
  index path_url_for decode_ascii {| query_string := [] |} with_proposals =
    (Ok (Redirect 302 "/debug.index"), with_proposals) ∧
  index path_url_for decode_ascii {| query_string := [] |} loaded =
    (Raise (HTTPException 404), loaded).
Proof.
  assert (get_index_url path_url_for with_proposals =
            (Ok (Some "/debug.index"), with_proposals)) as Hwinner
    by (vm_compute; reflexivity).
  assert ("/debug.index" ≠ "") as Hurl by discriminate.
  split; [|split].
  - destruct (index_redirects_to_winner path_url_for decode_ascii
                with_proposals
                {| query_string := list_byte_of_string "lang=en" |})
      as [Hsome _].
    destruct (Hsome "/debug.index" Hwinner Hurl) as [_ Hquery].
    apply (Hquery "lang=en"); [discriminate|reflexivity].
  - destruct (index_redirects_to_winner path_url_for decode_ascii
                with_proposals {| query_string := [] |}) as [Hsome _].
    destruct (Hsome "/debug.index" Hwinner Hurl) as [Hempty _].
    apply Hempty. reflexivity.
  - destruct (index_redirects_to_winner path_url_for decode_ascii loaded
                {| query_string := [] |}) as [_ Hnone].
    apply Hnone. reflexivity.
Defined.

(** C6, amended: [proposed_index_page] proposes on entry and, whether the
    body returns or raises, calls the disposer exactly once on exit: the
    outcome of the body is passed on and one copy of the page is gone.
    [mounted] mounts on entry and, when [mount] gave a remover, as it does
    for an ASGI application, calls it exactly once on exit whether the
    body returns or raises.  For a blueprint [mount] gives no remover, and
    nothing is revoked on exit: the state is as the body left it. *)
Theorem scoped_release {Router} router_add {A} (g : @globals Router)
    (body : @M Router A) (r : result A) (g2 : @globals Router) :
  r ≠ NoResult →
  (∀ route priority,
     is_heap page_lt (proposed_index_pages g) →
     body (propose_index_page route priority g).2 = (r, g2) →
     {| priority := - priority; route := route |} ∈ proposed_index_pages g2 →
     ∃ g3,
       disposer {| priority := - priority; route := route |} g2 = (Ok (), g3) ∧
       proposed_index_page route priority body g = (r, g3) ∧
       proposed_index_pages g2 ≡ₚ
         {| priority := - priority; route := route |} :: proposed_index_pages g3) ∧
  (∀ name path scopes priority ref router router' remover router2 router3,
     asgi_app (exports g) = Some ref →
     routers g !! ref = Some router →
     router_add router (AsgiApp name) scopes (Some path) priority =
       Ok (router', Some remover) →
     body (set_routers g (<[ref := router']> (routers g))) = (r, g2) →
     routers g2 !! ref = Some router2 →
     remover router2 = Ok router3 →
     mounted router_add (AsgiApp name) path scopes priority body g =
       (r, set_routers g2 (<[ref := router3]> (routers g2)))) ∧
  (∀ name path scopes priority q,
     quart_app g = Some q →
     body (set_quart_app g (Some (register_blueprint q name path))) = (r, g2) →
     mounted router_add (Blueprint name) path scopes priority body g = (r, g2)).
Proof.
  intros Hr. split; [|split].
  - intros route priority Hheap Hbody Hin.
    destruct (disposer_body_spec _ _ Hin) as (pages' & Hd & _ & Hperm).
    exists (set_pages g2 pages'). split; [|split; [|done]].
    + unfold disposer. by rewrite Hd.
    + unfold proposed_index_page, mbind, M_bind.
      destruct (heappush_spec page_lt page_lt_asym page_lt_negtrans
                  (proposed_index_pages g)
                  {| priority := - priority; route := route |} Hheap)
        as (h & Hpush & _).
      unfold propose_index_page in *. rewrite Hpush in *. cbn [snd] in Hbody.
      unfold try_finally. rewrite Hbody. unfold disposer. rewrite Hd.
      by destruct r.
  - intros name path scopes priority ref router router' remover router2
      router3 Href Hrouter Hadd Hbody Hrouter2 Hremove.
    unfold mounted, mbind, M_bind, mount.
    rewrite Href, Hrouter, Hadd. cbn [fmap option_fmap option_map].
    unfold try_finally. rewrite Hbody.
    unfold router_disposer. rewrite Hrouter2, Hremove. by destruct r.
  - intros name path scopes priority q Hq Hbody.
    unfold mounted, mbind, M_bind, mount. rewrite Hq.
    unfold try_finally. rewrite Hbody. by destruct r.
Qed.

Lemma scoped_release_witness :
  ∃ g3,
    disposer {| priority := - 5; route := "debug.index" |}
      (propose_index_page "debug.index" 5 loaded).2 = (Ok (), g3) ∧
    proposed_index_page "debug.index" 5
      (λ g, (Raise (RuntimeError "body failed"), g)) loaded =
      (@Raise () (RuntimeError "body failed"), g3) ∧
    proposed_index_pages (propose_index_page "debug.index" 5 loaded).2 ≡ₚ
      {| priority := - 5; route := "debug.index" |} :: proposed_index_pages g3.
Proof.
  destruct (scoped_release Routing.add loaded
              (λ g, (@Raise () (RuntimeError "body failed"), g))
              (Raise (RuntimeError "body failed"))
              (propose_index_page "debug.index" 5 loaded).2)
    as (Hproposal & _ & _); [discriminate|].
  apply (Hproposal "debug.index" 5%Z).
  - intros j x y _ _ Hx. vm_compute in Hx. destruct (parent j); discriminate.
  - reflexivity.
  - vm_compute. apply list_elem_of_here.
Defined.

(** C6 as stated fails for a blueprint: after the scope of [mounted] the
    blueprint is still registered on the application, and no remover was
    called. *)
Lemma blueprint_outlives_scope :
  quart_app loaded =
    Some {| import_name := PACKAGE_NAME; blueprints := [] |} ∧
  mount Routing.add (Blueprint "debug") "/debug" None 0 loaded =
    (Ok None,
     set_quart_app loaded
       (Some {| import_name := PACKAGE_NAME;
                blueprints := [("debug", "/debug")] |})) ∧
  mounted Routing.add (Blueprint "debug") "/debug" None 0
    (λ g, (Ok (), g)) loaded =
    (Ok (),
     set_quart_app loaded
       (Some {| import_name := PACKAGE_NAME;
                blueprints := [("debug", "/debug")] |})).
Proof. split; [|split]; reflexivity. Qed.

(** C8, as the code has it: when the configuration has no [host] key,
    [load] exports the host [localhost]; the schema of the same module
    declares the default [127.0.0.1]. *)
Theorem load_default_host {Router} router_new router_add port configuration
    (g g' : @globals Router) :
  configuration !! "host" = None →
  load router_new router_add port configuration g = (Ok (), g') →
  (∃ p, address (exports g') = Some (VStr "localhost", p)) ∧
  VStr "localhost" ≠ VStr schema_host_default.
Proof.
  intros Hhost. unfold load. rewrite Hhost.
  destruct (create_app router_new router_add g) as [[ref| |] g1]; [|done..].
  intros [= <-]. split; [by eexists|discriminate].
Qed.

Lemma load_default_host_witness :
  (∅ : gmap string value) !! "host" = None ∧
  (∃ p, address (exports loaded) = Some (VStr "localhost", p)) ∧
  VStr "localhost" ≠ VStr schema_host_default.
Proof.
  split; [reflexivity|].
  apply (load_default_host Routing.empty Routing.add example_port ∅
           initial loaded); reflexivity.
Defined.

Lemma route_longest_prefix_witness :
  ∃ t r,
    mounts_a_ab (AsgiApp "A") (AsgiApp "B") = Ok t ∧
    Routing.route t "http" "/a/b/c" = Some r ∧
    Routing.application r = AsgiApp "B" ∧
    Routing.eligible "http" "/a/b/c" r = true.
Proof.
  destruct route_longest_prefix as (Hsome & _ & Hexample).
  destruct (Hexample (AsgiApp "A") (AsgiApp "B") "http")
    as (t & r & Ht & Hr & Happ & _).
  exists t, r. split; [exact Ht|]. split; [exact Hr|]. split; [exact Happ|].
  exact (proj1 (Hsome t "http" "/a/b/c" r Hr)).
Defined.

(** * Further properties *)

(** ** The winner is a function of the live proposals *)

(** In a heap of pages, the first page is the only page that is below all
    pages. *)
Lemma heap_head_unique (h : list ProposedIndexPage) m x :
  is_heap page_lt h → h !! 0 = Some m → x ∈ h →
  (∀ y, y ∈ h → le page_lt x y) → x = m.
Proof.
  intros Hheap Hm Hx Hleast.
  apply page_lt_total.
  - by apply (heap_min page_lt page_lt_asym page_lt_negtrans h m).
  - apply (Hleast m). apply list_elem_of_lookup. by exists 0.
Qed.

Lemma heap_head_perm (h1 h2 : list ProposedIndexPage) :
  is_heap page_lt h1 → is_heap page_lt h2 → h1 ≡ₚ h2 → h1 !! 0 = h2 !! 0.
Proof.
  intros H1 H2 Hperm.
  destruct h1 as [|m1 t1], h2 as [|m2 t2]; try done.
  - by apply Permutation_nil_cons in Hperm.
  - symmetry in Hperm. by apply Permutation_nil_cons in Hperm.
  - simpl. f_equal. symmetry.
    apply (heap_head_unique (m1 :: t1)); [done|done| |].
    + rewrite Hperm. apply list_elem_of_here.
    + intros y Hy. rewrite Hperm in Hy.
      by apply (heap_min page_lt page_lt_asym page_lt_negtrans (m2 :: t2) m2).
Qed.

Lemma get_index_url_head {Router} url_for (g1 g2 : @globals Router) :
  proposed_index_pages g1 !! 0 = proposed_index_pages g2 !! 0 →
  (get_index_url url_for g1).1 = (get_index_url url_for g2).1.
Proof.
  unfold get_index_url.
  destruct (proposed_index_pages g1), (proposed_index_pages g2);
    simpl; intros; by simplify_eq.
Qed.

(** X1: after calls of [propose_index_page] and of disposers, none called
    again while a live proposal has the same priority and route as its
    own, the answer of [get_index_url] depends on the live proposals only,
    not on the order of the calls that made and revoked proposals: two
    such sequences of calls that leave the same proposals live, in
    whatever order, give the same answer. *)
Theorem winner_order_independent {Router} url_for (g0 g0' : @globals Router)
    (calls calls' : list call) :
  proposed_index_pages g0 = [] →
  proposed_index_pages g0' = [] →
  sound_disposals calls [] = true →
  sound_disposals calls' [] = true →
  live (history calls []) ≡ₚ live (history calls' []) →
  ∃ disposers g disposers' g',
    run_calls calls [] g0 = (Ok disposers, g) ∧
    run_calls calls' [] g0' = (Ok disposers', g') ∧
    (get_index_url url_for g).1 = (get_index_url url_for g').1.
Proof.
  intros Hg0 Hg0' Hs Hs' Hlive.
  destruct (run_calls_inv calls g0 [] [] (pages_inv_initial g0 Hg0) Hs)
    as (ds & g & Hrun & (Hheap & Hperm & _) & _).
  destruct (run_calls_inv calls' g0' [] [] (pages_inv_initial g0' Hg0') Hs')
    as (ds' & g' & Hrun' & (Hheap' & Hperm' & _) & _).
  exists ds, g, ds', g'. split; [done|]. split; [done|].
  apply get_index_url_head, heap_head_perm; [done|done|].
  by rewrite Hperm, Hperm', Hlive.
Qed.

Lemma winner_order_independent_witness :
  ∃ disposers g disposers' g',
    run_calls [Propose "a" 1; Propose "b" 2] [] (@initial unit) =
      (Ok disposers, g) ∧
    run_calls [Propose "b" 2; Propose "a" 1] [] (@initial unit) =
      (Ok disposers', g') ∧
    (get_index_url path_url_for g).1 = (get_index_url path_url_for g').1.
Proof.
  apply (winner_order_independent path_url_for (@initial unit) (@initial unit)
           [Propose "a" 1; Propose "b" 2] [Propose "b" 2; Propose "a" 1]);
    try reflexivity.
  apply perm_swap.
Defined.

(** X2: proposing a page and calling its disposer at once is a round trip:
    both calls return, the list holds the same pages as before and is a
    heap, [get_index_url] answers as before and the other globals are
    untouched. *)
Theorem propose_dispose_round_trip {Router} url_for (g : @globals Router)
    route priority :
  is_heap page_lt (proposed_index_pages g) →
  ∃ d g1 g2,
    propose_index_page route priority g = (Ok d, g1) ∧
    d g1 = (Ok (), g2) ∧
    is_heap page_lt (proposed_index_pages g2) ∧
    proposed_index_pages g2 ≡ₚ proposed_index_pages g ∧
    (get_index_url url_for g2).1 = (get_index_url url_for g).1 ∧
    same_rest g g2.
Proof.
  intros Hheap. unfold propose_index_page.
  destruct (heappush_spec page_lt page_lt_asym page_lt_negtrans
              (proposed_index_pages g)
              {| priority := - priority; route := route |} Hheap)
    as (h & -> & Hh & Hp).
  destruct (disposer_body_spec {| priority := - priority; route := route |} h)
    as (h' & Hd & Hh' & Hp').
  { rewrite Hp. apply list_elem_of_here. }
  eexists _, _, _. split; [done|].
  unfold disposer. simpl. rewrite Hd. split; [done|]. simpl.
  assert (h' ≡ₚ proposed_index_pages g) as Hperm.
  { apply (Permutation_cons_inv (a := {| priority := - priority; route := route |})).
    by rewrite <- Hp', Hp. }
  split; [done|]. split; [done|]. split; [|done].
  by apply get_index_url_head, heap_head_perm.
Qed.

Lemma propose_dispose_round_trip_witness :
  ∃ d g1 g2,
    propose_index_page "help.index" 9 with_proposals = (Ok d, g1) ∧
    d g1 = (Ok (), g2) ∧
    is_heap page_lt (proposed_index_pages g2) ∧
    proposed_index_pages g2 ≡ₚ proposed_index_pages with_proposals ∧
    (get_index_url path_url_for g2).1 =
      (get_index_url path_url_for with_proposals).1 ∧
    same_rest with_proposals g2.
Proof.
  apply (propose_dispose_round_trip path_url_for with_proposals "help.index" 9).
  intros j x y Hj _ Hx Hy.
  destruct j as [|[|j]]; [inversion Hj| |].
  - vm_compute in Hx, Hy. injection Hx as <-. injection Hy as <-. reflexivity.
  - apply lookup_lt_Some in Hy. vm_compute in Hy.
    apply Nat.succ_lt_mono, Nat.succ_lt_mono in Hy. inversion Hy.
Defined.

Lemma with_proposals_heap : is_heap page_lt (proposed_index_pages with_proposals).
Proof.
  intros j x y Hj _ Hx Hy.
  destruct j as [|[|j]]; [inversion Hj| |].
  - vm_compute in Hx, Hy. by simplify_eq.
  - apply lookup_lt_Some in Hy. vm_compute in Hy. lia.
Qed.

(** ** Proposals and the winner *)

(** X3: a proposal whose priority is above the priority of every page in
    the list wins at once: [propose_index_page] returns and [get_index_url]
    then resolves the new route. *)
Theorem propose_higher_wins {Router} url_for (g : @globals Router) r p :
  is_heap page_lt (proposed_index_pages g) →
  (∀ q, q ∈ proposed_index_pages g → (- priority q < p)%Z) →
  ∃ d g',
    propose_index_page r p g = (Ok d, g') ∧
    get_index_url url_for g' = (Some <$> url_for r, g').
Proof.
  intros Hheap Hlow. unfold propose_index_page.
  destruct (heappush_spec page_lt page_lt_asym page_lt_negtrans
              (proposed_index_pages g) {| priority := - p; route := r |} Hheap)
    as (h & -> & Hh & Hp).
  eexists _, _. split; [done|]. unfold get_index_url. simpl.
  destruct h as [|m h'] eqn:Hm.
  { by apply Permutation_nil_cons in Hp. }
  assert (m = {| priority := - p; route := r |}) as ->; [|done].
  symmetry. apply (heap_head_unique (m :: h')); [done|done| |].
  - rewrite Hp. apply list_elem_of_here.
  - intros y Hy. rewrite Hp in Hy. apply elem_of_cons in Hy as [->|Hy].
    + apply (le_refl page_lt page_lt_asym).
    + apply (lt_le page_lt page_lt_asym). specialize (Hlow y Hy).
      unfold page_lt. simpl. rewrite decide_False by lia.
      apply Z.ltb_lt. lia.
Qed.

Lemma propose_higher_wins_witness :
  ∃ d g',
    propose_index_page "help.index" 9 with_proposals = (Ok d, g') ∧
    get_index_url path_url_for g' = (Some <$> path_url_for "help.index", g').
Proof.
  apply (propose_higher_wins path_url_for with_proposals "help.index" 9).
  - exact with_proposals_heap.
  - intros q Hq. vm_compute in Hq.
    apply elem_of_cons in Hq as [->|Hq]; [reflexivity|].
    apply list_elem_of_singleton in Hq. rewrite Hq. reflexivity.
Defined.

(** X4: a proposal that comes after the current winner in the order of
    pages, because its priority is lower, or equal with a larger route,
    does not change the answer of [get_index_url]. *)
Theorem propose_lower_keeps_winner {Router} url_for (g : @globals Router)
    w r p :
  is_heap page_lt (proposed_index_pages g) →
  proposed_index_pages g !! 0 = Some w →
  (p < - priority w)%Z ∨ (p = - priority w ∧ str_lt (route w) r = true) →
  ∃ d g',
    propose_index_page r p g = (Ok d, g') ∧
    proposed_index_pages g' !! 0 = Some w ∧
    (get_index_url url_for g').1 = (get_index_url url_for g).1.
Proof.
  intros Hheap Hw Hafter. unfold propose_index_page.
  destruct (heappush_spec page_lt page_lt_asym page_lt_negtrans
              (proposed_index_pages g) {| priority := - p; route := r |} Hheap)
    as (h & -> & Hh & Hp).
  eexists _, _. split; [done|]. simpl.
  assert (h !! 0 = Some w) as Hhead.
  { destruct h as [|m h'] eqn:Hm.
    { by apply Permutation_nil_cons in Hp. }
    simpl. f_equal. symmetry.
    assert (w ∈ proposed_index_pages g) as Hin.
    { apply list_elem_of_lookup. by exists 0. }
    apply (heap_head_unique (m :: h')); [done|done| |].
    - rewrite Hp. by apply list_elem_of_further.
    - intros y Hy. rewrite Hp in Hy. apply elem_of_cons in Hy as [->|Hy].
      + apply (lt_le page_lt page_lt_asym). unfold page_lt. simpl.
        destruct Hafter as [Hlt|[Heq Hroute]].
        * rewrite decide_False by lia. apply Z.ltb_lt. lia.
        * rewrite decide_True by lia.
          destruct (decide (route w = r)) as [<-|_]; [|done].
          pose proof (str_lt_asym _ _ Hroute). congruence.
      + by apply (heap_min page_lt page_lt_asym page_lt_negtrans
                    (proposed_index_pages g) w). }
  split; [done|]. apply get_index_url_head. simpl. by rewrite Hhead, Hw.
Qed.

Lemma propose_lower_keeps_winner_witness :
  ∃ d g',
    propose_index_page "about.index" 3 with_proposals = (Ok d, g') ∧
    proposed_index_pages g' !! 0 =
      Some {| priority := - 5; route := "debug.index" |} ∧
    (get_index_url path_url_for g').1 =
      (get_index_url path_url_for with_proposals).1.
Proof.
  apply (propose_lower_keeps_winner path_url_for with_proposals
           {| priority := - 5; route := "debug.index" |} "about.index" 3).
  - exact with_proposals_heap.
  - reflexivity.
  - left. reflexivity.
Defined.

(** X5: the disposer of a page that is anywhere in the list returns,
    whatever the order of the list and however many equal pages it holds:
    exactly one copy of the page is removed and what remains is a heap,
    even when the list was not one before. *)
Theorem disposer_repairs_heap {Router} (g : @globals Router) page :
  page ∈ proposed_index_pages g →
  ∃ g',
    disposer page g = (Ok (), g') ∧
    is_heap page_lt (proposed_index_pages g') ∧
    proposed_index_pages g ≡ₚ page :: proposed_index_pages g' ∧
    S (length (proposed_index_pages g')) = length (proposed_index_pages g) ∧
    same_rest g g'.
Proof.
  intros Hin. unfold disposer.
  destruct (disposer_body_spec page (proposed_index_pages g) Hin)
    as (pages' & -> & Hheap & Hperm).
  eexists. split; [done|]. simpl. split; [done|]. split; [done|].
  split; [|done]. by rewrite Hperm.
Qed.

Lemma disposer_repairs_heap_witness :
  ∃ g',
    disposer {| priority := 1; route := "b" |}
      (set_pages (@initial unit)
         [{| priority := 3; route := "c" |}; {| priority := 1; route := "b" |};
          {| priority := 2; route := "a" |}; {| priority := 1; route := "b" |}]) =
      (Ok (), g') ∧
    is_heap page_lt (proposed_index_pages g') ∧
    [{| priority := 3; route := "c" |}; {| priority := 1; route := "b" |};
     {| priority := 2; route := "a" |}; {| priority := 1; route := "b" |}] ≡ₚ
      {| priority := 1; route := "b" |} :: proposed_index_pages g' ∧
    S (length (proposed_index_pages g')) = 4 ∧
    same_rest
      (set_pages (@initial unit)
         [{| priority := 3; route := "c" |}; {| priority := 1; route := "b" |};
          {| priority := 2; route := "a" |}; {| priority := 1; route := "b" |}])
      g'.
Proof.
  apply (disposer_repairs_heap
           (set_pages (@initial unit)
              [{| priority := 3; route := "c" |}; {| priority := 1; route := "b" |};
               {| priority := 2; route := "a" |}; {| priority := 1; route := "b" |}])
           {| priority := 1; route := "b" |}).
  apply list_elem_of_further, list_elem_of_here.
Defined.

(** ** Scopes *)



(** X7: when the body of [with proposed_index_page(...)] ends and the page
    of the scope is no longer in the list, the scope ends with the
    [ValueError] of the disposer, whatever the body returned or raised. *)
Theorem proposed_index_page_lost_page {Router} {A}
    (g : @globals Router) (body : @M Router A) r p res g2 :
  is_heap page_lt (proposed_index_pages g) →
  body (propose_index_page r p g).2 = (res, g2) →
  res ≠ NoResult →
  {| priority := - p; route := r |} ∉ proposed_index_pages g2 →
  proposed_index_page r p body g = (Raise ValueError, g2).
Proof.
  intros Hheap Hbody Hres Hgone.
  unfold proposed_index_page, mbind, M_bind, propose_index_page in *.
  destruct (heappush_spec page_lt page_lt_asym page_lt_negtrans
              (proposed_index_pages g) {| priority := - p; route := r |} Hheap)
    as (h & Hpush & Hh & Hp).
  rewrite Hpush in *. cbn [snd] in *.
  unfold try_finally, disposer. rewrite Hbody.
  rewrite (disposer_body_missing _ _ Hgone). by destruct res.
Qed.

Lemma proposed_index_page_lost_page_witness :
  proposed_index_page "help.index" 9
    (λ g, (Ok 7%Z, set_pages g [])) with_proposals =
    (Raise ValueError, set_pages with_proposals []).
Proof.
  apply (proposed_index_page_lost_page with_proposals
           (λ g, (Ok 7%Z, set_pages g [])) "help.index" 9 (Ok 7%Z)).
  - exact with_proposals_heap.
  - reflexivity.
  - discriminate.
  - apply not_elem_of_nil.
Defined.

(** X8: until the extension is loaded, and again after [unload], [mount]
    raises [AttributeError] for a blueprint and for an ASGI application
    alike and changes nothing, and [mounted] raises it without running its
    body. *)
Theorem mount_needs_loaded_extension {Router} router_add {A}
    (g : @globals Router) app path scopes prio (body : @M Router A) :
  mount router_add app path scopes prio (unload g).2 =
    (Raise AttributeError, (unload g).2) ∧
  mounted router_add app path scopes prio body (unload g).2 =
    (Raise AttributeError, (unload g).2) ∧
  mount router_add app path scopes prio initial = (Raise AttributeError, initial) ∧
  mounted router_add app path scopes prio body initial =
    (Raise AttributeError, initial).
Proof. by destruct app. Qed.

(** ** Loading and unloading *)

Lemma load_ok_inv {Router} router_new router_add port
    (configuration : gmap string value) (g g1 : @globals Router) :
  load router_new router_add port configuration g = (Ok (), g1) →
  quart_app g = None ∧
  ∃ router remover,
    router_add router_new (AsgiApp PACKAGE_NAME) (Some ["http"; "websocket"])
      None 0%Z = Ok (router, remover) ∧
    g1 = set_exports
           (set_routers
              (set_quart_app g
                 (Some {| import_name := PACKAGE_NAME; blueprints := [] |}))
              (routers g ++ [router]))
           {| address :=
                Some (default (VStr "localhost") (configuration !! "host"),
                      default (VInt (port "http")) (configuration !! "port"));
              asgi_app := Some (length (routers g)) |}.
Proof.
  unfold load, create_app. destruct (quart_app g); [done|].
  destruct (router_add _ _ _ _ _) as [[router remover]| |]; [|done..].
  intros [= <-]. split; [done|]. by exists router, remover.
Qed.

(** X9: a second [load] without an [unload] in between raises
    [RuntimeError] from [create_app] and changes nothing: the address that
    the first [load] exported stays, whatever the second configuration
    says. *)
Theorem load_twice_raises {Router} router_new router_add port
    (configuration configuration' : gmap string value)
    (g g1 : @globals Router) :
  load router_new router_add port configuration g = (Ok (), g1) →
  load router_new router_add port configuration' g1 =
    (Raise (RuntimeError "App is already created"), g1).
Proof.
  intros (_ & router & remover & _ & ->)%load_ok_inv. done.
Qed.

Lemma load_twice_raises_witness :
  load Routing.empty Routing.add example_port
    {[ "host" := VStr "0.0.0.0" ]} loaded =
    (Raise (RuntimeError "App is already created"), loaded).
Proof.
  apply (load_twice_raises Routing.empty Routing.add example_port ∅
           {[ "host" := VStr "0.0.0.0" ]} initial loaded).
  reflexivity.
Defined.



(** ** Failures of the index route *)

(** X11: the handler of the root path never changes the state of the
    module.  It asks [url_for] about the first page of the heap only: when
    that fails, the handler fails in the same way, whatever other pages are
    proposed; when the URL is empty it aborts with 404; and when the query
    string is not empty and cannot be decoded, the error of the decoder is
    raised. *)
Theorem index_failures {Router} url_for decode_utf8 (g : @globals Router)
    request :
  (index url_for decode_utf8 request g).2 = g ∧
  (∀ page pages e,
     proposed_index_pages g = page :: pages →
     url_for (route page) = Raise e →
     index url_for decode_utf8 request g = (Raise e, g)) ∧
  (∀ page pages,
     proposed_index_pages g = page :: pages →
     url_for (route page) = Ok "" →
     index url_for decode_utf8 request g = (Raise (HTTPException 404), g)) ∧
  (∀ page pages u e,
     proposed_index_pages g = page :: pages →
     url_for (route page) = Ok u → u ≠ "" →
     query_string request ≠ [] →
     decode_utf8 (query_string request) = Raise e →
     index url_for decode_utf8 request g = (Raise e, g)).
Proof.
  unfold index, mbind, M_bind, get_index_url. split; [|split; [|split]].
  - destruct (proposed_index_pages g) as [|page pages]; [done|].
    destruct (url_for (route page)) as [u| |]; [|done..]. simpl.
    destruct (String.eqb u ""); [done|]. simpl.
    destruct (query_string request); [done|].
    by destruct (decode_utf8 _).
  - intros page pages e -> ->. done.
  - intros page pages -> ->. done.
  - intros page pages u e -> -> Hu Hq Hdec. simpl.
    apply String.eqb_neq in Hu. rewrite Hu. simpl.
    destruct (query_string request); [done|]. by rewrite Hdec.
Qed.

Lemma index_failures_witness :
  index docs_url_for decode_ascii {| query_string := [] |} with_proposals =
    (Raise BuildError, with_proposals) ∧
  index path_url_for decode_nothing
    {| query_string := list_byte_of_string "x" |} with_proposals =
    (Raise UnicodeDecodeError, with_proposals).
Proof.
  split.
  - destruct (index_failures docs_url_for decode_ascii with_proposals
                {| query_string := [] |}) as (_ & Hurl & _).
    apply (Hurl {| priority := - 5; route := "debug.index" |}
             [{| priority := - 1; route := "docs.index" |}]); reflexivity.
  - destruct (index_failures path_url_for decode_nothing with_proposals
                {| query_string := list_byte_of_string "x" |})
      as (_ & _ & _ & Hdec).
    apply (Hdec {| priority := - 5; route := "debug.index" |}
             [{| priority := - 1; route := "docs.index" |}] "/debug.index");
      try reflexivity; discriminate.
Defined.

(** ** More on the serve loop *)

Lemma count_cons kind ev (tr : list (float * event)) :
  count kind (ev :: tr) = (if kind ev then 1 else 0) + count kind tr.
Proof.
  unfold count. destruct (kind ev) eqn:E.
  - by rewrite filter_cons_True.
  - rewrite filter_cons_False; [done|]. by rewrite E.
Qed.

Lemma count_app kind (tr1 tr2 : list (float * event)) :
  count kind (tr1 ++ tr2) = count kind tr1 + count kind tr2.
Proof. unfold count. by rewrite filter_app, length_app. Qed.

Section serve_loop_more.
Context {Router : Type}.
Variable g : @globals Router.
Variable config : HyperConfig.
Variable starting : string.


(** A fatal failure comes after three failures in a row of which the last
    two, and the fatal one, were found to come less than 5 time units
    after the server started; with a counter that starts at [retries], the
    run of short failures may also start the environment. *)
Lemma serve_loop_fatal_inv env : ∀ now retries e,
  retries ≤ 3 →
  (serve_loop g config starting env now retries).1 = Raise e →
  is_Exception e = true →
  (∃ pre a b c d rest,
     started now env = pre ++ [a; b; c; d] ++ rest ∧ failure a ∧
     short_failure b ∧ short_failure c ∧ short_failure d ∧
     raised d.2 = Some e) ∨
  (∃ s o rest,
     started now env = s ++ o :: rest ∧ length s + 1 + retries = 4 ∧
     1 ≤ retries ∧
     Forall short_failure s ∧ short_failure o ∧ raised o.2 = Some e).
Proof.
  induction env as [|[t [e0|] r] env IH]; intros now retries e Hr Hfatal He;
    [done| |done].
  destruct (is_Exception e0) eqn:He0.
  2:{ cbn [serve_loop stopped_at resumed_at raised] in Hfatal.
      rewrite He0 in Hfatal. cbn in Hfatal. congruence. }
  change {| stopped_at := t; raised := Some e0; resumed_at := r |}
    with (crash t r e0) in *.
  rewrite serve_loop_crash in Hfatal by done. cbn zeta in Hfatal.
  cbn [started crash resumed_at].
  change {| stopped_at := t; raised := Some e0; resumed_at := r |}
    with (crash t r e0).
  destruct (5 <=? t - now)%float eqn:Hlong.
  - rewrite decide_True in Hfatal by lia. cbn [fst] in Hfatal.
    destruct (IH r (0 + 1) e ltac:(lia) Hfatal He)
      as [(pre & a & b & c & d' & rest & -> & Ha & Hb & Hc & Hd & Hlast)
         |(s & o & rest & -> & Hlen & _ & Hs & Ho & Hlast)].
    + left. exists ((now, crash t r e0) :: pre), a, b, c, d', rest. done.
    + left. destruct s as [|b [|c [|? ?]]]; simpl in Hlen; try lia.
      apply Forall_cons in Hs as [Hb Hs]. apply Forall_cons in Hs as [Hc _].
      exists [], (now, crash t r e0), b, c, o, rest.
      split; [done|]. split; [by exists e0|done].
  - assert (short_failure (now, crash t r e0)) as Hshort.
    { split; [by exists e0|done]. }
    case_decide as Hlt.
    + cbn [fst] in Hfatal.
      destruct (IH r (retries + 1) e ltac:(lia) Hfatal He)
        as [(pre & a & b & c & d' & rest & -> & Ha & Hb & Hc & Hd & Hlast)
           |(s & o & rest & -> & Hlen & _ & Hs & Ho & Hlast)].
      * left. exists ((now, crash t r e0) :: pre), a, b, c, d', rest. done.
      * destruct (decide (retries = 0)) as [->|Hpos].
        -- left. destruct s as [|b [|c [|? ?]]]; simpl in Hlen; try lia.
           apply Forall_cons in Hs as [Hb Hs]. apply Forall_cons in Hs as [Hc _].
           exists [], (now, crash t r e0), b, c, o, rest.
           split; [done|]. split; [by exists e0|done].
        -- right. exists ((now, crash t r e0) :: s), o, rest.
           split; [done|]. split; [simpl; lia|]. split; [lia|].
           split; [by apply Forall_cons|done].
    + cbn [fst] in Hfatal. right.
      exists [], (now, crash t r e0), (started r env).
      split; [done|]. split; [simpl; lia|]. split; [lia|].
      split; [apply Forall_nil_2|]. split; [done|]. simpl. congruence.
Qed.

End serve_loop_more.

Lemma run_unfold {Router} fsa debug configuration env now
    (g : @globals Router) host port :
  address (exports g) = Some (host, port) →
  ∃ config starting,
    run fsa debug configuration env now g =
      ((serve_loop g config starting env now 0).1,
       (if negb debug then [(now, SetLevel "WARNING")] else []) ++
       (serve_loop g config starting env now 0).2).
Proof.
  intros Ha. unfold run. rewrite Ha. cbn zeta.
  match goal with
  | |- context [serve_loop g ?c ?s env now 0] => exists c, s
  end.
  by destruct (serve_loop _ _ _ _ _ _).
Qed.



(** X13: when four calls of [serve] in a row raise an [Exception] and the
    time computed for the second, the third and the fourth of them, the
    float difference of the clock readings, is below 5, [run] raises the
    fourth exception; it has called [serve] four times and slept three
    times, and what the environment holds beyond the fourth outcome plays
    no role. *)
Theorem short_crash_loop_fatal {Router} fsa debug configuration now
    (g : @globals Router) host port t1 r1 t2 r2 t3 r3 t4 r4 e1 e2 e3 e4 rest :
  address (exports g) = Some (host, port) →
  is_Exception e1 = true → is_Exception e2 = true →
  is_Exception e3 = true → is_Exception e4 = true →
  (5 <=? t2 - r1)%float = false →
  (5 <=? t3 - r2)%float = false →
  (5 <=? t4 - r3)%float = false →
  (run fsa debug configuration
     (crash t1 r1 e1 :: crash t2 r2 e2 :: crash t3 r3 e3 :: crash t4 r4 e4 ::
      rest) now g).1 = Raise e4 ∧
  count is_serve
    (run fsa debug configuration
       (crash t1 r1 e1 :: crash t2 r2 e2 :: crash t3 r3 e3 :: crash t4 r4 e4 ::
        rest) now g).2 = 4 ∧
  count is_sleep
    (run fsa debug configuration
       (crash t1 r1 e1 :: crash t2 r2 e2 :: crash t3 r3 e3 :: crash t4 r4 e4 ::
        rest) now g).2 = 3.
Proof.
  intros Ha H1 H2 H3 H4 Hs2 Hs3 Hs4.
  destruct (run_unfold fsa debug configuration
              (crash t1 r1 e1 :: crash t2 r2 e2 :: crash t3 r3 e3 ::
               crash t4 r4 e4 :: rest)
              now g host port Ha) as (config & starting & ->).
  cbn [fst snd]. rewrite !count_app.
  assert (∀ kind, kind = is_serve ∨ kind = is_sleep →
            count kind (if negb debug then [(now, SetLevel "WARNING")] else []) = 0)
    as Hlevel.
  { intros kind [->| ->]; by destruct debug. }
  rewrite !Hlevel by auto.
  rewrite (close_failures_fatal g config starting t1 r1 t2 r2 t3 r3 t4 r4)
    by done.
  cbn [fst snd]. rewrite !count_cons. done.
Qed.

Lemma short_crash_loop_fatal_witness :
  (run plain_socket_address false ∅ gap5_failures 0 loaded).1 =
    Raise network_down ∧
  count is_serve (run plain_socket_address false ∅ gap5_failures 0 loaded).2 = 4 ∧
  count is_sleep (run plain_socket_address false ∅ gap5_failures 0 loaded).2 = 3.
Proof.
  apply (short_crash_loop_fatal plain_socket_address false ∅ 0%float loaded
           (VStr "localhost") (VInt 5000) 4 5 9 10 14 15 19 20
           network_down network_down network_down network_down [])%float;
    reflexivity.
Defined.

(** X14: [run] gives up only after a crash loop.  When it raises an
    [Exception], the calls of [serve] hold four failures in a row, the
    last of which raised that exception, and the time computed for each of
    the last three, the float difference of the clock readings, was below
    5. *)
Theorem fatal_only_after_crash_loop {Router} fsa debug configuration env now
    (g : @globals Router) host port e :
  address (exports g) = Some (host, port) →
  (run fsa debug configuration env now g).1 = Raise e →
  is_Exception e = true →
  ∃ pre a b c d rest,
    started now env = pre ++ [a; b; c; d] ++ rest ∧ failure a ∧
    short_failure b ∧ short_failure c ∧ short_failure d ∧
    raised d.2 = Some e.
Proof.
  intros Ha Hfatal He.
  destruct (run_unfold fsa debug configuration env now g host port Ha)
    as (config & starting & Hrun).
  rewrite Hrun in Hfatal. cbn [fst] in Hfatal.
  destruct (serve_loop_fatal_inv g config starting env now 0 e
              ltac:(lia) Hfatal He) as [Hloop|(s & o & rest & _ & _ & Hr & _)];
    [done|lia].
Qed.

Lemma fatal_only_after_crash_loop_witness :
  ∃ pre a b c d rest,
    started 0 rounded_failures = pre ++ [a; b; c; d] ++ rest ∧ failure a ∧
    short_failure b ∧ short_failure c ∧ short_failure d ∧
    raised d.2 = Some network_down.
Proof.
  apply (fatal_only_after_crash_loop plain_socket_address false ∅
           rounded_failures 0%float loaded (VStr "localhost") (VInt 5000)
           network_down);
    reflexivity.
Defined.



(** ** Registries *)

#[local] Instance str_le_total : Total str_le.
Proof.
  intros a b. unfold str_le. destruct (str_lt b a) eqn:Hba; [|by left].
  right. by apply str_lt_asym.
Qed.

#[local] Instance str_le_trans : Transitive str_le.
Proof. intros a b c. unfold str_le. apply str_lt_negtrans. Qed.

Lemma sorted_nodup_strict (l : list string) :
  StronglySorted str_le l → NoDup l →
  StronglySorted (λ a b, str_lt a b = true) l.
Proof.
  induction 1 as [|a l Hl IH Ha]; intros Hnd; [constructor|].
  apply NoDup_cons in Hnd as [Hin Hnd]. constructor; [by apply IH|].
  apply Forall_forall. intros b Hb.
  rewrite Forall_forall in Ha. specialize (Ha b Hb). unfold str_le in Ha.
  destruct (str_lt a b) eqn:Hab; [done|].
  assert (a = b) as -> by (by apply str_lt_total). done.
Qed.

(** X16: the identifiers that [RegistryBase.ids] lists are in strictly
    increasing order, they are exactly the identifiers that the registry
    contains, and there are [len(registry)] of them. *)
Theorem ids_sorted_complete {E} (registry : Registries.RegistryBase E) :
  StronglySorted (λ a b, str_lt a b = true) (Registries.ids registry) ∧
  (∀ entry_id,
     entry_id ∈ Registries.ids registry ↔
     Registries.__contains__ registry entry_id = true) ∧
  length (Registries.ids registry) = Registries.__len__ registry.
Proof.
  unfold Registries.__contains__, Registries.__len__. cbn.
  set (m := Registries._entries registry).
  assert (merge_sort str_le (map_to_list m).*1 ≡ₚ (map_to_list m).*1) as Hp
    by apply merge_sort_Permutation.
  split_and!.
  - apply sorted_nodup_strict.
    + apply (StronglySorted_merge_sort _).
    + rewrite Hp. apply NoDup_fst_map_to_list.
  - intros entry_id. rewrite Hp, bool_decide_eq_true.
    rewrite list_elem_of_fmap. split.
    + intros [[k v] [-> Hkv]]. apply elem_of_map_to_list in Hkv. by exists v.
    + intros [v Hv]. exists (entry_id, v). split; [done|].
      by apply elem_of_map_to_list.
  - rewrite Hp, length_fmap. apply length_map_to_list.
Qed.

(** X17: on a [RegistryBase], [find_in_registry] never raises; it returns
    the entry exactly when the registry contains the identifier, and then
    leaves the response alone; otherwise it returns [None] and adds one
    failure, for this identifier and reason, to the response if there is
    one. *)
Theorem find_in_registry_base {E Response}
    (add_failure : Response → string → option string → Response)
    (registry : Registries.RegistryBase E) entry_id response failure_reason :
  ∃ found response',
    Registries.find_in_registry add_failure registry entry_id response
      failure_reason = (Registries.Returns found, response') ∧
    found = Registries._entries registry !! entry_id ∧
    (is_Some found ↔ Registries.__contains__ registry entry_id = true) ∧
    (is_Some found → response' = response) ∧
    (found = None →
     response' = (λ r, add_failure r entry_id failure_reason) <$> response).
Proof.
  unfold Registries.find_in_registry, Registries.__contains__. cbn.
  destruct (Registries._entries registry !! entry_id) as [entry|] eqn:He.
  - eexists _, _. split; [reflexivity|]. split; [reflexivity|]. split_and!.
    + by rewrite bool_decide_eq_true.
    + done.
    + done.
  - eexists _, _. split; [reflexivity|]. split; [reflexivity|]. split_and!.
    + rewrite bool_decide_eq_true. split; by intros [? ?].
    + by intros [? ?].
    + intros _. by destruct response.
Qed.

(** ** The drone show status packet *)

Section crtp.
Open Scope Z_scope.

Lemma byte_value_range b : 0 ≤ Crtp.byte_value b < 256.
Proof.
  unfold Crtp.byte_value. pose proof (Byte.to_N_bounded b). lia.
Qed.

Lemma unsigned_short_range lo hi : 0 ≤ Crtp.unsigned_short lo hi < 65536.
Proof.
  unfold Crtp.unsigned_short.
  pose proof (byte_value_range lo). pose proof (byte_value_range hi). lia.
Qed.

Lemma signed_short_range lo hi : -32768 ≤ Crtp.signed_short lo hi < 32768.
Proof.
  unfold Crtp.signed_short. cbn zeta.
  pose proof (unsigned_short_range lo hi).
  destruct (Z.ltb_spec (Crtp.unsigned_short lo hi) 32768); lia.
Qed.

Lemma version_zero v : 0 ≤ v → negb (Z.shiftr v 4 =? 0) = false ↔ v < 16.
Proof.
  intros Hv. rewrite Z.shiftr_div_pow2 by lia. change (2 ^ 4) with 16.
  rewrite negb_false_iff, Z.eqb_eq. split; intros H.
  - Z.div_mod_to_equations. lia.
  - apply Z.div_small. lia.
Qed.

Lemma land_pow2 f n :
  0 ≤ n → Z.land f (2 ^ n) = if Z.testbit f n then 2 ^ n else 0.
Proof.
  intros Hn. apply Z.bits_inj'. intros m Hm.
  rewrite Z.land_spec, Z.pow2_bits_eqb by lia.
  destruct (Z.eqb_spec n m) as [->|Hne].
  - destruct (Z.testbit f m); cbn.
    + rewrite Z.pow2_bits_eqb by lia. by rewrite Z.eqb_refl.
    + by rewrite Z.bits_0.
  - rewrite andb_false_r. destruct (Z.testbit f n).
    + rewrite Z.pow2_bits_eqb by lia. symmetry. by apply Z.eqb_neq.
    + by rewrite Z.bits_0.
Qed.

Lemma checks_digits (w : Z) : 0 ≤ w < 65536 →
  Crtp.checks_word ((λ index, Z.land (Z.shiftr w (Z.of_nat index * 2)) 3) <$> seq 0 8) = w.
Proof.
  intros Hw. cbn [seq fmap list_fmap Crtp.checks_word].
  change 3 with (Z.ones 2). rewrite !Z.land_ones by lia.
  rewrite !Z.shiftr_div_pow2 by lia.
  change (Z.of_nat 0 * 2) with 0. change (Z.of_nat 1 * 2) with 2.
  change (Z.of_nat 2 * 2) with 4. change (Z.of_nat 3 * 2) with 6.
  change (Z.of_nat 4 * 2) with 8. change (Z.of_nat 5 * 2) with 10.
  change (Z.of_nat 6 * 2) with 12. change (Z.of_nat 7 * 2) with 14.
  change (2 ^ 0) with 1. change (2 ^ 2) with 4. change (2 ^ 4) with 16.
  change (2 ^ 6) with 64. change (2 ^ 8) with 256. change (2 ^ 10) with 1024.
  change (2 ^ 12) with 4096. change (2 ^ 14) with 16384.
  Z.div_mod_to_equations. lia.
Qed.

Lemma land3_range w k : 0 ≤ Z.land (Z.shiftr w k) 3 ≤ 3.
Proof.
  assert (Z.land (Z.shiftr w k) 3 = Z.shiftr w k mod 4) as ->.
  { change 3 with (Z.ones 2). by rewrite Z.land_ones by lia. }
  pose proof (Z.mod_pos_bound (Z.shiftr w k) 4 ltac:(lia)). lia.
Qed.

Lemma from_bytes_version_nonzero b rest :
  16 ≤ Crtp.byte_value b → Crtp.from_bytes (b :: rest) = Crtp.Unpacked None.
Proof.
  intros Hb. unfold Crtp.from_bytes, Crtp.byte_at. cbn [lookup list_lookup].
  destruct (negb (Z.shiftr (Crtp.byte_value b) 4 =? 0)) eqn:Hv; [done|].
  apply version_zero in Hv; [lia|]. apply byte_value_range.
Qed.

Lemma from_bytes_short b rest :
  Crtp.byte_value b < 16 → (length rest < 14)%nat →
  Crtp.from_bytes (b :: rest) = Crtp.Failed Crtp.StructError.
Proof.
  intros Hb Hlen. unfold Crtp.from_bytes, Crtp.byte_at at 1.
  cbn [lookup list_lookup].
  destruct (negb (Z.shiftr (Crtp.byte_value b) 4 =? 0)) eqn:Hv.
  { apply not_false_iff_true in Hv. destruct Hv. apply version_zero; [|done].
    apply byte_value_range. }
  do 14 (destruct rest as [|? rest]; [done|]). cbn in Hlen. lia.
Qed.

Lemma from_bytes_full b0 b1 b2 c0 c1 x0 x1 y0 y1 z0 z1 w0 w1 l0 l1 rest :
  Crtp.byte_value b0 < 16 →
  Crtp.from_bytes
    (b0 :: b1 :: b2 :: c0 :: c1 :: x0 :: x1 :: y0 :: y1 :: z0 :: z1 :: w0 ::
     w1 :: l0 :: l1 :: rest) =
  Crtp.Unpacked (Some
    {| Crtp.battery_voltage := {| Crtp.num := Crtp.byte_value b1; Crtp.den := 10 |};
       Crtp.flags := Crtp.byte_value b2;
       Crtp.preflight_checks :=
         (λ index, Z.land (Z.shiftr (Crtp.unsigned_short c0 c1)
                             (Z.of_nat index * 2)) 3) <$> seq 0 8;
       Crtp.position :=
         Some ({| Crtp.num := Crtp.signed_short x0 x1; Crtp.den := 1000 |},
               {| Crtp.num := Crtp.signed_short y0 y1; Crtp.den := 1000 |},
               {| Crtp.num := Crtp.signed_short z0 z1; Crtp.den := 1000 |});
       Crtp.light := Crtp.unsigned_short l0 l1;
       Crtp.show_execution_stage :=
         default Crtp.ERROR
           (Crtp.stage_of_value (Z.land (Crtp.byte_value b0) 15));
       Crtp.yaw := Crtp.signed_short w0 w1 |}).
Proof.
  intros Hb. unfold Crtp.from_bytes, Crtp.byte_at.
  cbn [lookup list_lookup drop take Crtp.unpack_HhhhhH].
  destruct (negb (Z.shiftr (Crtp.byte_value b0) 4 =? 0)) eqn:Hv; [|done].
  apply not_false_iff_true in Hv. destruct Hv. apply version_zero; [|done].
  apply byte_value_range.
Qed.

Lemma from_bytes_inv data st :
  Crtp.from_bytes data = Crtp.Unpacked (Some st) →
  ∃ b0 b1 b2 c0 c1 x0 x1 y0 y1 z0 z1 w0 w1 l0 l1 rest,
    data = b0 :: b1 :: b2 :: c0 :: c1 :: x0 :: x1 :: y0 :: y1 :: z0 :: z1 ::
             w0 :: w1 :: l0 :: l1 :: rest ∧
    Crtp.byte_value b0 < 16.
Proof.
  intros Hst. destruct data as [|b0 data]; [done|].
  destruct (Z.le_gt_cases 16 (Crtp.byte_value b0)) as [Hb|Hb].
  { by rewrite from_bytes_version_nonzero in Hst. }
  destruct (decide (length data < 14)%nat) as [Hlen|Hlen].
  { by rewrite from_bytes_short in Hst. }
  do 14 (destruct data as [|? data]; [cbn in Hlen; lia|]).
  by repeat eexists.
Qed.

(** X18: [from_bytes] raises [IndexError] on an empty packet, and on any
    other packet it returns [None] exactly when the high four bits of the
    first byte, the version, are not zero: whatever follows the first
    byte, and however short the packet is. *)
Theorem from_bytes_version_gate :
  Crtp.from_bytes [] = Crtp.Failed (Crtp.PyError IndexError) ∧
  ∀ b rest,
    Crtp.from_bytes (b :: rest) = Crtp.Unpacked None ↔ 16 ≤ Crtp.byte_value b.
Proof.
  split; [done|]. intros b rest. split; [|apply from_bytes_version_nonzero].
  intros Hnone. destruct (Z.le_gt_cases 16 (Crtp.byte_value b)) as [|Hb]; [done|].
  destruct (decide (length rest < 14)%nat) as [Hlen|Hlen].
  { by rewrite from_bytes_short in Hnone. }
  do 14 (destruct rest as [|? rest]; [cbn in Hlen; lia|]).
  by rewrite from_bytes_full in Hnone.
Qed.

(** X19: a packet of version zero shorter than fifteen bytes makes
    [from_bytes] raise [struct.error], also when it has fewer than three
    bytes; with fifteen bytes or more it gives a status. *)
Theorem from_bytes_length b rest :
  Crtp.byte_value b < 16 →
  ((length rest < 14)%nat →
   Crtp.from_bytes (b :: rest) = Crtp.Failed Crtp.StructError) ∧
  ((14 ≤ length rest)%nat →
   ∃ st, Crtp.from_bytes (b :: rest) = Crtp.Unpacked (Some st)).
Proof.
  intros Hb. split; [by apply from_bytes_short|]. intros Hlen.
  do 14 (destruct rest as [|? rest]; [cbn in Hlen; lia|]).
  eexists. by apply from_bytes_full.
Qed.

Lemma from_bytes_length_witness :
  Crtp.from_bytes (take 14 Crtp.sample_packet) = Crtp.Failed Crtp.StructError.
Proof.
  apply (from_bytes_length Byte.x06 (take 13 (drop 1 Crtp.sample_packet))).
  - reflexivity.
  - vm_compute. lia.
Defined.

(** X20: [from_bytes] reads the first fifteen bytes only: what follows
    them changes nothing. *)
Theorem from_bytes_ignores_trailing data extra :
  (15 ≤ length data)%nat →
  Crtp.from_bytes (data ++ extra) = Crtp.from_bytes data.
Proof.
  intros Hlen.
  do 15 (destruct data as [|? data]; [cbn in Hlen; lia|]).
  match goal with
  | |- Crtp.from_bytes ((?b :: _) ++ _) = _ =>
      destruct (Z.le_gt_cases 16 (Crtp.byte_value b)) as [Hb|Hb]
  end.
  - cbn [app]. by rewrite !from_bytes_version_nonzero.
  - cbn [app]. by rewrite !from_bytes_full.
Qed.

Lemma from_bytes_ignores_trailing_witness :
  Crtp.from_bytes (Crtp.sample_packet ++ [Byte.xff; Byte.x00]) =
  Crtp.from_bytes Crtp.sample_packet.
Proof.
  apply (from_bytes_ignores_trailing Crtp.sample_packet [Byte.xff; Byte.x00]).
  vm_compute. lia.
Defined.

(** X21: the fields of a status that [from_bytes] gives: the flags and the
    tenths of a volt are a byte, the position is present and its three
    coordinates are signed 16-bit numbers of thousandths, as is the yaw,
    and the light is an unsigned 16-bit number. *)
Theorem from_bytes_ranges data st :
  Crtp.from_bytes data = Crtp.Unpacked (Some st) →
  0 ≤ Crtp.flags st < 256 ∧
  0 ≤ Crtp.num (Crtp.battery_voltage st) < 256 ∧
  Crtp.den (Crtp.battery_voltage st) = 10 ∧
  (∃ x y z,
     Crtp.position st = Some (x, y, z) ∧
     Forall (λ c, -32768 ≤ Crtp.num c < 32768 ∧ Crtp.den c = 1000) [x; y; z]) ∧
  0 ≤ Crtp.light st < 65536 ∧
  -32768 ≤ Crtp.yaw st < 32768.
Proof.
  intros Hst.
  destruct (from_bytes_inv data st Hst)
    as (b0 & b1 & b2 & c0 & c1 & x0 & x1 & y0 & y1 & z0 & z1 & w0 & w1 & l0 &
        l1 & rest & -> & Hb).
  rewrite from_bytes_full in Hst by done. injection Hst as <-.
  cbn [Crtp.flags Crtp.battery_voltage Crtp.num Crtp.den Crtp.position
       Crtp.light Crtp.yaw].
  split_and!; try apply byte_value_range; try apply unsigned_short_range;
    try apply signed_short_range; [done|].
  eexists _, _, _. split; [done|].
  repeat (apply Forall_cons; split;
          [split; [apply signed_short_range|done]|]).
  apply Forall_nil. exact I.
Qed.

Lemma from_bytes_ranges_witness :
  ∃ st,
    Crtp.from_bytes Crtp.sample_packet = Crtp.Unpacked (Some st) ∧
    0 ≤ Crtp.flags st < 256 ∧
    0 ≤ Crtp.num (Crtp.battery_voltage st) < 256 ∧
    Crtp.den (Crtp.battery_voltage st) = 10 ∧
    (∃ x y z,
       Crtp.position st = Some (x, y, z) ∧
       Forall (λ c, -32768 ≤ Crtp.num c < 32768 ∧ Crtp.den c = 1000) [x; y; z]) ∧
    0 ≤ Crtp.light st < 65536 ∧
    -32768 ≤ Crtp.yaw st < 32768.
Proof.
  eexists. split; [vm_compute; reflexivity|].
  apply (from_bytes_ranges Crtp.sample_packet). vm_compute. reflexivity.
Defined.

(** X22: the preflight checks of a status are eight numbers from 0 to 3,
    and they are the base-4 digits, lowest first, of the little-endian
    word in bytes 3 and 4 of the packet: no bit of it is lost. *)
Theorem from_bytes_checks_word data st :
  Crtp.from_bytes data = Crtp.Unpacked (Some st) →
  length (Crtp.preflight_checks st) = 8%nat ∧
  Forall (λ c, 0 ≤ c ≤ 3) (Crtp.preflight_checks st) ∧
  ∃ c0 c1,
    data !! 3%nat = Some c0 ∧ data !! 4%nat = Some c1 ∧
    Crtp.checks_word (Crtp.preflight_checks st) = Crtp.unsigned_short c0 c1.
Proof.
  intros Hst.
  destruct (from_bytes_inv data st Hst)
    as (b0 & b1 & b2 & c0 & c1 & x0 & x1 & y0 & y1 & z0 & z1 & w0 & w1 & l0 &
        l1 & rest & -> & Hb).
  rewrite from_bytes_full in Hst by done. injection Hst as <-.
  cbn [Crtp.preflight_checks]. split_and!.
  - reflexivity.
  - repeat (apply Forall_cons; split; [apply land3_range|]).
    apply Forall_nil. exact I.
  - exists c0, c1. split_and!; [done|done|].
    exact (checks_digits _ (unsigned_short_range c0 c1)).
Qed.

Lemma from_bytes_checks_word_witness :
  ∃ st,
    Crtp.from_bytes Crtp.sample_packet = Crtp.Unpacked (Some st) ∧
    length (Crtp.preflight_checks st) = 8%nat ∧
    Forall (λ c, 0 ≤ c ≤ 3) (Crtp.preflight_checks st) ∧
    ∃ c0 c1,
      Crtp.sample_packet !! 3%nat = Some c0 ∧
      Crtp.sample_packet !! 4%nat = Some c1 ∧
      Crtp.checks_word (Crtp.preflight_checks st) = Crtp.unsigned_short c0 c1.
Proof.
  eexists. split; [vm_compute; reflexivity|].
  apply (from_bytes_checks_word Crtp.sample_packet). vm_compute. reflexivity.
Defined.

(** X23: the execution stage of a status is the member whose value is the
    first byte of the packet, and [ERROR] when that byte is above 11. *)
Theorem from_bytes_stage data st :
  Crtp.from_bytes data = Crtp.Unpacked (Some st) →
  ∃ b,
    data !! 0%nat = Some b ∧
    Crtp.stage_value (Crtp.show_execution_stage st) =
      Z.min (Crtp.byte_value b) 11.
Proof.
  intros Hst.
  destruct (from_bytes_inv data st Hst)
    as (b0 & b1 & b2 & c0 & c1 & x0 & x1 & y0 & y1 & z0 & z1 & w0 & w1 & l0 &
        l1 & rest & -> & Hb).
  rewrite from_bytes_full in Hst by done. injection Hst as <-.
  exists b0. split; [done|]. cbn [Crtp.show_execution_stage].
  pose proof (byte_value_range b0) as Hr.
  change 15 with (Z.ones 4). rewrite Z.land_ones by lia.
  rewrite Z.mod_small by (change (2 ^ 4) with 16; lia).
  set (v := Crtp.byte_value b0) in *.
  assert (v = 0 ∨ v = 1 ∨ v = 2 ∨ v = 3 ∨ v = 4 ∨ v = 5 ∨ v = 6 ∨ v = 7 ∨
          v = 8 ∨ v = 9 ∨ v = 10 ∨ v = 11 ∨ v = 12 ∨ v = 13 ∨ v = 14 ∨
          v = 15) as Hv by lia.
  destruct_or!; rewrite Hv; reflexivity.
Qed.

Lemma from_bytes_stage_witness :
  ∃ st b,
    Crtp.from_bytes Crtp.sample_packet = Crtp.Unpacked (Some st) ∧
    Crtp.sample_packet !! 0%nat = Some b ∧
    Crtp.stage_value (Crtp.show_execution_stage st) =
      Z.min (Crtp.byte_value b) 11.
Proof.
  eexists.
  destruct (from_bytes_stage Crtp.sample_packet _ eq_refl) as [b [Hb Hs]].
  exists b. split; [reflexivity|]. split; [exact Hb|exact Hs].
Defined.

(** X24: [DroneShowExecutionStage(n)] gives a member exactly when [n] is
    its value; so the values of the members are distinct and every member
    can be read back from its value. *)
Theorem stage_value_round_trip s n :
  Crtp.stage_of_value n = Some s ↔ n = Crtp.stage_value s.
Proof.
  split; [|intros ->; by destruct s].
  destruct n as [|p|p]; [by intros [= <-]| |done].
  do 4 (destruct p as [p|p|]; try by intros [= <-]).
Qed.

(** X25: no stage is both idle and likely airborne, and
    [get_short_explanation] never raises: it gives a text, which is empty
    exactly for [UNKNOWN] and [IDLE]. *)
Theorem stage_classes s :
  (Crtp.is_idle s = true → Crtp.is_likely_airborne s = false) ∧
  ∃ text,
    Crtp.get_short_explanation s = Ok text ∧
    (text = "" ↔ Crtp.stage_value s ≤ 1).
Proof.
  split; [by destruct s|].
  destruct s; eexists; (split; [reflexivity|]); cbn; split; (done || lia).
Qed.

(** X26: the properties of the flags agree with [has_flag]: [armed] is
    its negation for [DISARMED]; [airborne], [charging] and [testing]
    return the masked integer (0 or the value of the flag), not a
    boolean; [mode] is show whenever the show flag is set and auto
    exactly when only the high level commander flag of the two is. *)
Theorem status_flags st :
  Crtp.armed st = negb (Crtp.has_flag st Crtp.DISARMED) ∧
  (Crtp.airborne st = 0 ∨ Crtp.airborne st = 8) ∧
  (Crtp.airborne st ≠ 0 ↔ Crtp.has_flag st Crtp.AIRBORNE = true) ∧
  (Crtp.charging st = 0 ∨ Crtp.charging st = 1) ∧
  (Crtp.testing st = 0 ∨ Crtp.testing st = 16) ∧
  (Crtp.mode st = "show" ↔
   Crtp.has_flag st Crtp.DRONE_SHOW_MODE_ENABLED = true) ∧
  (Crtp.mode st = "auto" ↔
   Crtp.has_flag st Crtp.DRONE_SHOW_MODE_ENABLED = false ∧
   Crtp.has_flag st Crtp.HIGH_LEVEL_COMMANDER_ENABLED = true).
Proof.
  unfold Crtp.armed, Crtp.airborne, Crtp.charging, Crtp.testing, Crtp.mode,
    Crtp.has_flag.
  split_and!.
  - done.
  - change Crtp.AIRBORNE with (2 ^ 3). rewrite land_pow2 by lia.
    destruct (Z.testbit _ _); [by right|by left].
  - rewrite negb_true_iff. symmetry. apply Z.eqb_neq.
  - change Crtp.BATTERY_CHARGING with (2 ^ 0). rewrite land_pow2 by lia.
    destruct (Z.testbit _ _); [by right|by left].
  - change Crtp.TESTING_MODE with (2 ^ 4). rewrite land_pow2 by lia.
    destruct (Z.testbit _ _); [by right|by left].
  - destruct (negb (Z.land _ Crtp.DRONE_SHOW_MODE_ENABLED =? 0)); [done|].
    by destruct (negb (Z.land _ Crtp.HIGH_LEVEL_COMMANDER_ENABLED =? 0)).
  - destruct (negb (Z.land _ Crtp.DRONE_SHOW_MODE_ENABLED =? 0)).
    + split; [done|]. by intros [? _].
    + destruct (negb (Z.land _ Crtp.HIGH_LEVEL_COMMANDER_ENABLED =? 0));
        split; try done. by intros [_ ?].
Qed.

End crtp.
